(** * mobx-state-tree: action recording, replay and asynchronous actions

    A shallow embedding of [src/core/async.ts] (the asynchronous action
    coordinator) and of the behaviour exercised by [test/action.ts]
    (interception, argument serialisation, recording and replay of
    synchronous actions), with the properties of the specification stated
    and proved over it. *)

From stdpp Require Import base option list strings pretty gmap.
From Stdlib Require Import ZArith Lia Ascii.

Local Open Scope Z_scope.
Local Open Scope nat_scope.

(** A tree node is addressed by the identity of the tree it lives in and by
    its path from the root of that tree (the empty list is the root). *)
Record node := Node { node_tree : nat; node_path : list string }.

#[global] Instance node_eq_dec : EqDecision node.
Proof. solve_decision. Defined.

(** ** Part I: the asynchronous action coordinator ([src/core/async.ts]) *)
Module Async.

(** A thenable handed to [yield]: either an operation of the environment or
    the promise returned by a run of an asynchronous action. *)
Inductive handle := HOp (n : nat) | HRun (r : nat).

#[global] Instance handle_eq_dec : EqDecision handle.
Proof. solve_decision. Defined.

(** The JavaScript values that flow through the coordinator. *)
Inductive value :=
| VUndefined
| VNull
| VBool (b : bool)
| VNum (z : Z)
| VStr (s : string)
| VError (message : string)
| VPromise (h : handle).

#[global] Instance value_eq_dec : EqDecision value.
Proof. solve_decision. Defined.

(** [!v] is false exactly on the truthy values. *)
Definition truthy (v : value) : bool :=
  match v with
  | VUndefined | VNull => false
  | VBool b => b
  | VNum z => negb (Z.eqb z 0)
  | VStr s => negb (String.eqb s "")
  | VError _ | VPromise _ => true
  end.

(** [typeof v.then === "function"]. *)
Definition has_then (v : value) : bool :=
  match v with VPromise _ => true | _ => false end.

(** [IActionAsyncMode] of [./action]. *)
Inductive IActionAsyncMode :=
| ModeNone | ModeInvoke | ModeYield | ModeYieldError | ModeReturn | ModeThrow.

#[global] Instance mode_eq_dec : EqDecision IActionAsyncMode.
Proof. solve_decision. Defined.

(** What an action invoker reports about one call: the record seen by the
    listeners. *)
Record call := Call {
  call_name : string;
  call_mode : IActionAsyncMode;
  call_runId : nat;
  call_object : node;
  call_args : list value
}.

(** How a promise settles. *)
Inductive outcome := Fulfilled (v : value) | Rejected (e : value).

(** [{ done, value }], the result of [gen.next] and [gen.throw]. *)
Record iter_result := IterResult { done : bool; ival : value }.

(** A promise reaction job: [onFulfilled] or [onRejected] of run [job_run],
    applied to the settled value. *)
Record job := Job { job_run : nat; job_outcome : outcome }.

(** The two callbacks handed to [setImmediate]. *)
Inductive task :=
| TReturn (r : nat) (v : value)   (* wrap(r => resolve(r), "return", ret.value) *)
| TThrow (r : nat) (e : value).   (* wrap(r => reject(e), "throw", e) *)

Definition task_run (t : task) : nat :=
  match t with TReturn r _ | TThrow r _ => r end.

(** What resumes a suspended generator: [gen.next(v)] or [gen.throw(e)]. *)
Inductive signal := Next (v : value) | Throw (e : value).

(** Who is called back when a promise settles: the callbacks [onFulfilled]
    and [onRejected] of the run that yielded it, or the resolving functions
    of the promise of a run that was resolved with it. *)
Inductive reaction := Resume (r : nat) | Adopt (r : nat).

(** The jobs of the promise job queue: a reaction job that calls
    [onFulfilled] or [onRejected] of a run; the reaction job that settles
    the promise of run [r] after the promise it adopted has settled; and the
    job that, once the promise of run [r] was resolved with the thenable
    [h], calls [h.then] with the resolving functions of that promise. *)
Inductive microtask :=
| MJob (j : job)
| MAdopt (r : nat) (o : outcome)
| MThen (r : nat) (h : handle).

Section Coordinator.

(** The step sequences (generators) are those of the caller: [G] is the type
    of their suspended states, [resume] runs one up to its next [yield], its
    [return] or an exception that escapes it. What the body of a generator
    does to the tree between two yields is not part of this model; the
    thenables it yields are promises: their callbacks run in later jobs, and
    once. *)
Variable G : Type.

Inductive step_result :=
| Yielded (v : value) (g : G)
| Returned (v : value)
| Raised (e : value).

Variable resume : G -> signal -> step_result.

(** The generator object held in [gen]. *)
Inductive genobj := GUndefined | GSuspended (g : G) | GClosed.

(** The closure of one call of [asyncAction]: the variables [name], [runId],
    [ctx], [gen] and the state of the promise it returns. *)
Record run := Run {
  run_name : string;
  run_runId : nat;
  run_ctx : node;
  run_gen : genobj;
  run_result : option outcome
}.

(** The function returned by [createAsyncActionInvoker]. *)
Record invoker := Invoker {
  inv_name : string;
  inv_generator : node -> list value -> G;
  inv_runId : nat
}.

(** The state of the program: the module variable [generatorId], the invokers
    created so far, the records the listeners have seen, the closures of the
    calls, and the JavaScript job queues. [ops] holds the outcome of the
    settled operations of the environment; [waiting] holds the reactions that
    [then] registered on pending promises, in registration order; [acting]
    tells whether an action is running. *)
Record world := World {
  generatorId : nat;
  invokers : list invoker;
  log : list call;
  runs : list run;
  ops : gmap nat outcome;
  waiting : list (handle * reaction);
  microtasks : list microtask;
  immediates : list task;
  unhandled : list value;
  acting : bool
}.

Definition init_world : world :=
  World 0 [] [] [] ∅ [] [] [] [] false.

Definition set_generatorId (n : nat) (w : world) : world :=
  World n (invokers w) (log w) (runs w) (ops w) (waiting w) (microtasks w)
    (immediates w) (unhandled w) (acting w).
Definition set_invokers (l : list invoker) (w : world) : world :=
  World (generatorId w) l (log w) (runs w) (ops w) (waiting w) (microtasks w)
    (immediates w) (unhandled w) (acting w).
Definition set_log (l : list call) (w : world) : world :=
  World (generatorId w) (invokers w) l (runs w) (ops w) (waiting w)
    (microtasks w) (immediates w) (unhandled w) (acting w).
Definition set_runs (l : list run) (w : world) : world :=
  World (generatorId w) (invokers w) (log w) l (ops w) (waiting w)
    (microtasks w) (immediates w) (unhandled w) (acting w).
Definition set_ops (m : gmap nat outcome) (w : world) : world :=
  World (generatorId w) (invokers w) (log w) (runs w) m (waiting w)
    (microtasks w) (immediates w) (unhandled w) (acting w).
Definition set_waiting (l : list (handle * reaction)) (w : world) : world :=
  World (generatorId w) (invokers w) (log w) (runs w) (ops w) l (microtasks w)
    (immediates w) (unhandled w) (acting w).
Definition set_microtasks (l : list microtask) (w : world) : world :=
  World (generatorId w) (invokers w) (log w) (runs w) (ops w) (waiting w) l
    (immediates w) (unhandled w) (acting w).
Definition set_immediates (l : list task) (w : world) : world :=
  World (generatorId w) (invokers w) (log w) (runs w) (ops w) (waiting w)
    (microtasks w) l (unhandled w) (acting w).
Definition set_unhandled (l : list value) (w : world) : world :=
  World (generatorId w) (invokers w) (log w) (runs w) (ops w) (waiting w)
    (microtasks w) (immediates w) l (acting w).
Definition set_acting (b : bool) (w : world) : world :=
  World (generatorId w) (invokers w) (log w) (runs w) (ops w) (waiting w)
    (microtasks w) (immediates w) (unhandled w) b.

(** *** Computations: state passing with exceptions *)

Inductive res (A : Type) := Ok (a : A) | Thrown (e : value).
Arguments Ok {A} a.
Arguments Thrown {A} e.

Definition M (A : Type) : Type := world -> res A * world.

Definition pure {A} (a : A) : M A := fun w => (Ok a, w).
Definition throw {A} (e : value) : M A := fun w => (Thrown e, w).
Definition bind {A B} (m : M A) (k : A -> M B) : M B :=
  fun w => match m w with
           | (Ok a, w') => k a w'
           | (Thrown e, w') => (Thrown e, w')
           end.
(** [try { m } catch (e) { h e }] *)
Definition try_catch {A} (m : M A) (h : value -> M A) : M A :=
  fun w => match m w with
           | (Ok a, w') => (Ok a, w')
           | (Thrown e, w') => h e w'
           end.
Definition modify (f : world -> world) : M unit := fun w => (Ok tt, f w).

Notation "'let*' x ':=' m 'in' k" := (bind m (fun x => k))
  (at level 10, x name, m at level 100, k at level 200).

(** *** The runtime: promises and [setImmediate] *)

Definition dead_run : run := Run "" 0 (Node 0 []) GUndefined None.

Definition run_of (r : nat) (w : world) : run := default dead_run (runs w !! r).

Definition set_gen (r : nat) (g : genobj) (w : world) : world :=
  set_runs (alter (fun x => Run (run_name x) (run_runId x) (run_ctx x) g (run_result x)) r (runs w)) w.

Definition set_result (r : nat) (o : outcome) (w : world) : world :=
  set_runs (alter (fun x => Run (run_name x) (run_runId x) (run_ctx x) (run_gen x) (Some o)) r (runs w)) w.

(** The state of a promise: [None] while pending. *)
Definition status (h : handle) (w : world) : option outcome :=
  match h with
  | HOp n => ops w !! n
  | HRun r => run_result (run_of r w)
  end.

Definition set_status (h : handle) (o : outcome) (w : world) : world :=
  match h with
  | HOp n => set_ops (<[n := o]> (ops w)) w
  | HRun r => set_result r o w
  end.

Definition on (h : handle) (x : handle * reaction) : bool := bool_decide (x.1 = h).

(** The job that a registered reaction becomes when its promise settles. *)
Definition react (o : outcome) (x : handle * reaction) : microtask :=
  match x.2 with
  | Resume r => MJob (Job r o)
  | Adopt r => MAdopt r o
  end.

(** Settling a pending promise queues one reaction job for every [then]
    registered on it, in registration order; settling a settled promise does
    nothing. *)
Definition settle (h : handle) (o : outcome) (w : world) : world :=
  match status h w with
  | Some _ => w
  | None =>
      let fired := List.filter (on h) (waiting w) in
      let rest := List.filter (fun x => negb (on h x)) (waiting w) in
      set_microtasks (microtasks w ++ List.map (react o) fired)
        (set_waiting rest (set_status h o w))
  end.

(** [p.then(onFulfilled, onRejected)] with the two callbacks of run [r]: the
    reaction runs in a later job, never within the call of [then]. *)
Definition then_ (h : handle) (r : nat) : M unit :=
  modify (fun w =>
    match status h w with
    | Some o => set_microtasks (microtasks w ++ [MJob (Job r o)]) w
    | None => set_waiting (waiting w ++ [(h, Resume r)]) w
    end).

Definition setImmediate (t : task) : M unit :=
  modify (fun w => set_immediates (immediates w ++ [t]) w).

Definition chaining_cycle : value :=
  VError "TypeError: Chaining cycle detected for promise #<Promise>".

(** What the resolving function of the promise of run [r] does with [v]: a
    promise resolved with itself is rejected; resolved with another thenable
    it stays pending and a job is queued that will call [then] on the
    thenable, so that the promise follows it; any other value fulfils it. *)
Definition resolve_promise (r : nat) (v : value) (w : world) : world :=
  match v with
  | VPromise h =>
      if decide (h = HRun r) then settle (HRun r) (Rejected chaining_cycle) w
      else set_microtasks (microtasks w ++ [MThen r h]) w
  | _ => settle (HRun r) (Fulfilled v) w
  end.

(** [resolve] and [reject] of the promise that run [r] returned, the two
    functions handed to the executor. A run calls one of them, once: see
    [run_task] and [asyncAction]. *)
Definition resolve (r : nat) (v : value) : M unit :=
  modify (resolve_promise r v).
Definition reject (r : nat) (e : value) : M unit :=
  modify (settle (HRun r) (Rejected e)).

(** The job queued for a promise of run [r] resolved with the promise [h]:
    [h.then(resolveFn, rejectFn)] with fresh resolving functions of the
    promise of [r]. *)
Definition run_then (r : nat) (h : handle) (w : world) : world :=
  match status h w with
  | Some o => set_microtasks (microtasks w ++ [MAdopt r o]) w
  | None => set_waiting (waiting w ++ [(h, Adopt r)]) w
  end.

(** The reaction job of an adopted promise: the promise of run [r] is
    resolved with the value, or rejected with the error, of the promise it
    follows. *)
Definition run_adopt (r : nat) (o : outcome) (w : world) : world :=
  match o with
  | Fulfilled v => resolve_promise r v w
  | Rejected e => settle (HRun r) (Rejected e) w
  end.

(** Modelled from the spec: [fail] of [../utils] is not among the sources; it
    raises an error that carries the message behind the prefix that the
    library's messages have in [test/action.ts]. *)
Definition fail {A} (message : string) : M A :=
  throw (VError ("[mobx-state-tree] " +:+ message)).

(** Modelled from the spec: [createActionInvoker] of [./action] is not among
    the sources. Per sections 2 and 4.3 there is a single active action per
    synchronous turn and one record per top-level call: a call made while no
    action is running builds the record of the call (name, mode, run
    identifier, acting node, arguments), hands it to the listeners and runs
    the wrapped function as the active action, with the same receiver and
    arguments, returning what it returns and raising what it raises; a call
    made while an action is running runs the wrapped function as part of
    that action and reports nothing. *)
Definition createActionInvoker {A} (name : string) (fn : node -> list value -> M A)
    (mode : IActionAsyncMode) (runId : nat) : node -> list value -> M A :=
  fun this args w =>
    if acting w then fn this args w
    else
      let w1 := set_acting true (set_log (log w ++ [Call name mode runId this args]) w) in
      match fn this args w1 with
      | (res, w2) => (res, set_acting false w2)
      end.

(** *** [src/core/async.ts] *)

(** [gen.next(v)] and [gen.throw(e)] on the generator of run [r]. *)
Definition gen_resume (r : nat) (s : signal) : M iter_result :=
  fun w =>
    match run_gen (run_of r w) with
    | GUndefined => (Thrown (VError "TypeError: gen is undefined"), w)
    | GClosed =>
        match s with
        | Next _ => (Ok (IterResult true VUndefined), w)
        | Throw e => (Thrown e, w)
        end
    | GSuspended g =>
        match resume g s with
        | Yielded v g' => (Ok (IterResult false v), set_gen r (GSuspended g') w)
        | Returned v => (Ok (IterResult true v), set_gen r GClosed w)
        | Raised e => (Thrown e, set_gen r GClosed w)
        end
    end.

(** [wrap(fn, mode, arg)]:
    [createActionInvoker(name, fn, mode, runId).call(ctx, arg)]. The source
    assigns the result of [fn] to the local [ret]; here [wrap] returns it. *)
Definition wrap {A} (r : nat) (fn : value -> M A) (mode : IActionAsyncMode)
    (arg : value) : M A :=
  fun w =>
    let c := run_of r w in
    createActionInvoker (run_name c)
      (fun _ args => fn (List.hd VUndefined args)) mode (run_runId c)
      (run_ctx c) [arg] w.

Definition next (r : nat) (ret : iter_result) : M unit :=
  if done ret then
    setImmediate (TReturn r (ival ret))
  else if negb (truthy (ival ret)) || negb (has_then (ival ret)) then
    fail ("Only promises can be yielded to `async`, got: " +:+ "[object Object]")
  else
    match ival ret with
    | VPromise h => then_ h r
    | _ => pure tt
    end.

Definition onFulfilled (r : nat) (res : value) : M unit :=
  fun w =>
    match wrap r (fun x => gen_resume r (Next x)) ModeYield res w with
    | (Thrown e, w') => setImmediate (TThrow r e) w'
    | (Ok ret, w') => next r ret w'
    end.

Definition onRejected (r : nat) (err : value) : M unit :=
  fun w =>
    match wrap r (fun x => gen_resume r (Throw x)) ModeYieldError err w with
    | (Thrown e, w') => setImmediate (TThrow r e) w'
    | (Ok ret, w') => next r ret w'
    end.

(** The body of a callback given to [setImmediate]. *)
Definition run_task (t : task) : M unit :=
  match t with
  | TReturn r v => wrap r (fun x => resolve r x) ModeReturn v
  | TThrow r e => wrap r (fun _ => reject r e) ModeThrow e
  end.

Definition asyncActionInit (generator : node -> list value -> G) (r : nat)
    : node -> list value -> M unit :=
  fun this arguments =>
    let* _ := modify (set_gen r (GSuspended (generator this arguments))) in
    onFulfilled r VUndefined.

(** [asyncAction], the function that [createAsyncActionInvoker] returns: the
    call allocates the closure and its promise, and runs the executor at
    once; an exception that escapes the executor rejects the promise. *)
Definition asyncAction (inv : invoker) (ctx : node) (args : list value) : M value :=
  fun w =>
    let r := length (runs w) in
    let w1 := set_runs (runs w ++ [Run (inv_name inv) (inv_runId inv) ctx GUndefined None]) w in
    match createActionInvoker (inv_name inv)
            (asyncActionInit (inv_generator inv) r) ModeInvoke (inv_runId inv)
            ctx args w1 with
    | (Ok _, w2) => (Ok (VPromise (HRun r)), w2)
    | (Thrown e, w2) => (Ok (VPromise (HRun r)), settle (HRun r) (Rejected e) w2)
    end.

Definition createAsyncActionInvoker (name : string)
    (generator : node -> list value -> G) : M invoker :=
  fun w =>
    let runId := S (generatorId w) in
    (Ok (Invoker name generator runId), set_generatorId runId w).

(** *** The event loop *)

(** A reaction job calls [onFulfilled] or [onRejected]; what the callback
    raises rejects the promise that [then] returned, which nobody holds. *)
Definition run_job (j : job) (w : world) : world :=
  let m := match job_outcome j with
           | Fulfilled v => onFulfilled (job_run j) v
           | Rejected e => onRejected (job_run j) e
           end in
  match m w with
  | (Ok _, w') => w'
  | (Thrown e, w') => set_unhandled (unhandled w' ++ [e]) w'
  end.

Definition run_immediate (t : task) (w : world) : world :=
  match run_task t w with
  | (Ok _, w') => w'
  | (Thrown e, w') => set_unhandled (unhandled w' ++ [e]) w'
  end.

(** What can happen next: the program creates an invoker, calls the [i]th
    invoker it created, or runs a synchronous action; an operation of the
    environment settles; the scheduler runs the next job, a promise job if
    there is one and the oldest [setImmediate] callback otherwise. *)
Inductive event :=
| EvCreate (name : string) (generator : node -> list value -> G)
| EvCall (i : nat) (ctx : node) (args : list value)
| EvSync (name : string) (ctx : node) (args : list value)
| EvSettle (n : nat) (o : outcome)
| EvTick.

Definition step (w : world) (ev : event) : world :=
  match ev with
  | EvCreate name generator =>
      match createAsyncActionInvoker name generator w with
      | (Ok inv, w') => set_invokers (invokers w' ++ [inv]) w'
      | (Thrown _, w') => w'
      end
  | EvCall i ctx args =>
      match invokers w !! i with
      | Some inv => (asyncAction inv ctx args w).2
      | None => w
      end
  | EvSync name ctx args =>
      (createActionInvoker name (fun _ _ => pure tt) ModeNone 0 ctx args w).2
  | EvSettle n o => settle (HOp n) o w
  | EvTick =>
      match microtasks w with
      | MJob j :: js => run_job j (set_microtasks js w)
      | MAdopt r o :: js => run_adopt r o (set_microtasks js w)
      | MThen r h :: js => run_then r h (set_microtasks js w)
      | [] =>
          match immediates w with
          | t :: ts => run_immediate t (set_immediates ts w)
          | [] => w
          end
      end
  end.

Definition exec (w : world) (evs : list event) : world := foldl step w evs.

(** The worlds the program can be in. *)
Inductive reachable : world -> Prop :=
| reachable_init : reachable init_world
| reachable_step w ev : reachable w -> reachable (step w ev).

(** *** Reading the model: what one turn of a run does *)

Definition emit (c : call) (w : world) : world := set_log (log w ++ [c]) w.

(** What the interceptor does with the record of a call: it is reported
    unless an action is running. *)
Definition reported (c : call) (w : world) : world :=
  if acting w then w else emit c w.

(** The common shape of [onFulfilled] and [onRejected]: report the step under
    [mode], resume the generator with [s], and go on with what it produced. *)
Definition advance (r : nat) (mode : IActionAsyncMode) (s : signal) : M unit :=
  fun w =>
    let arg := match s with Next v => v | Throw e => e end in
    match wrap r (fun _ => gen_resume r s) mode arg w with
    | (Thrown e, w') => setImmediate (TThrow r e) w'
    | (Ok ret, w') => next r ret w'
    end.

(** The record that a sub-step of run [r] reports. *)
Definition step_record (r : nat) (mode : IActionAsyncMode) (arg : value)
    (w : world) : call :=
  Call (run_name (run_of r w)) mode (run_runId (run_of r w))
    (run_ctx (run_of r w)) [arg].

(** The reactions and jobs through which the promise of run [r] follows a
    promise it was resolved with. *)
Definition adopts (r : nat) (x : reaction) : bool :=
  match x with Adopt r' => Nat.eqb r' r | Resume _ => false end.
Definition follows (r : nat) (m : microtask) : bool :=
  match m with MAdopt r' _ | MThen r' _ => Nat.eqb r' r | MJob _ => false end.
Definition adopting_of (r : nat) (w : world) : nat :=
  length (List.filter (fun x => adopts r x.2) (waiting w)) +
  length (List.filter (follows r) (microtasks w)).

(** The reactions, jobs and callbacks that belong to run [r]. *)
Definition resumes (r : nat) (x : reaction) : bool :=
  match x with Resume r' => Nat.eqb r' r | Adopt _ => false end.
Definition job_of (r : nat) (m : microtask) : bool :=
  match m with MJob j => Nat.eqb (job_run j) r | _ => false end.

Definition waits_of (r : nat) (w : world) : list (handle * reaction) :=
  List.filter (fun x => resumes r x.2) (waiting w).
Definition jobs_of (r : nat) (w : world) : list microtask :=
  List.filter (job_of r) (microtasks w).
Definition tasks_of (r : nat) (w : world) : list task :=
  List.filter (fun t => Nat.eqb (task_run t) r) (immediates w).

(** How many continuations of run [r] are registered or queued. *)
Definition pending_of (r : nat) (w : world) : nat :=
  length (waits_of r w) + length (jobs_of r w) + length (tasks_of r w).

(** The records that were reported after the log had [n] entries. *)
Definition emitted_since (n : nat) (w : world) : list call := drop n (log w).

(** The records that end a run: mode [return] or [throw]. *)
Definition is_terminal (c : call) : bool :=
  match call_mode c with ModeReturn | ModeThrow => true | _ => false end.


(** *** Basic facts about the runtime *)

Lemma onFulfilled_advance r res : onFulfilled r res = advance r ModeYield (Next res).
Proof. reflexivity. Qed.

Lemma onRejected_advance r err : onRejected r err = advance r ModeYieldError (Throw err).
Proof. reflexivity. Qed.

Lemma run_of_set_gen_ne r r' g w : r' ≠ r -> run_of r' (set_gen r g w) = run_of r' w.
Proof.
  intros Hne. unfold run_of, set_gen. simpl.
  by rewrite list_lookup_alter_ne.
Qed.

Lemma run_of_set_result_ne r r' o w : r' ≠ r -> run_of r' (set_result r o w) = run_of r' w.
Proof.
  intros Hne. unfold run_of, set_result. simpl.
  by rewrite list_lookup_alter_ne.
Qed.

Lemma run_of_set_gen r g w :
  r < length (runs w) ->
  run_of r (set_gen r g w) =
  Run (run_name (run_of r w)) (run_runId (run_of r w)) (run_ctx (run_of r w)) g
    (run_result (run_of r w)).
Proof.
  intros Hlt. unfold run_of, set_gen. simpl.
  rewrite list_lookup_alter_eq.
  destruct (lookup_lt_is_Some_2 _ _ Hlt) as [x Hx]. by rewrite Hx.
Qed.

Lemma run_of_set_result r o w :
  r < length (runs w) ->
  run_of r (set_result r o w) =
  Run (run_name (run_of r w)) (run_runId (run_of r w)) (run_ctx (run_of r w))
    (run_gen (run_of r w)) (Some o).
Proof.
  intros Hlt. unfold run_of, set_result. simpl.
  rewrite list_lookup_alter_eq.
  destruct (lookup_lt_is_Some_2 _ _ Hlt) as [x Hx]. by rewrite Hx.
Qed.

Lemma run_of_out r w : length (runs w) <= r -> run_of r w = dead_run.
Proof. intros Hle. unfold run_of. by rewrite lookup_ge_None_2. Qed.

(** [set_gen] touches nothing but the generator of its run. *)
Lemma set_gen_static r r' g w :
  run_name (run_of r' (set_gen r g w)) = run_name (run_of r' w) /\
  run_runId (run_of r' (set_gen r g w)) = run_runId (run_of r' w) /\
  run_ctx (run_of r' (set_gen r g w)) = run_ctx (run_of r' w) /\
  run_result (run_of r' (set_gen r g w)) = run_result (run_of r' w).
Proof.
  destruct (decide (r' = r)) as [->|Hne]; [|by rewrite run_of_set_gen_ne].
  destruct (decide (r < length (runs w))) as [Hlt|Hge].
  - by rewrite run_of_set_gen.
  - rewrite !run_of_out; [done | lia |].
    unfold set_gen. simpl. rewrite length_alter. lia.
Qed.

Lemma set_result_static r r' o w :
  run_name (run_of r' (set_result r o w)) = run_name (run_of r' w) /\
  run_runId (run_of r' (set_result r o w)) = run_runId (run_of r' w) /\
  run_ctx (run_of r' (set_result r o w)) = run_ctx (run_of r' w) /\
  run_gen (run_of r' (set_result r o w)) = run_gen (run_of r' w).
Proof.
  destruct (decide (r' = r)) as [->|Hne]; [|by rewrite run_of_set_result_ne].
  destruct (decide (r < length (runs w))) as [Hlt|Hge].
  - by rewrite run_of_set_result.
  - rewrite !run_of_out; [done | lia |].
    unfold set_result. simpl. rewrite length_alter. lia.
Qed.

(** *** The running action *)

Lemma set_acting_same b w : acting w = b -> set_acting b w = w.
Proof. intros <-. by destruct w. Qed.

(** The records that a call of the interceptor adds to the log. *)
Definition reports (w : world) (c : call) : list call :=
  if acting w then [] else [c].

Lemma reported_log c w : log (reported c w) = log w ++ reports w c.
Proof.
  unfold reported, reports. destruct (acting w); [by rewrite app_nil_r|done].
Qed.

Lemma reported_fields c w :
  generatorId (reported c w) = generatorId w /\ invokers (reported c w) = invokers w /\
  runs (reported c w) = runs w /\ ops (reported c w) = ops w /\
  waiting (reported c w) = waiting w /\ microtasks (reported c w) = microtasks w /\
  immediates (reported c w) = immediates w /\ unhandled (reported c w) = unhandled w /\
  acting (reported c w) = acting w.
Proof. unfold reported. destruct (acting w) eqn:Ha; simpl; rewrite ?Ha; done. Qed.

Lemma run_of_reported r c w : run_of r (reported c w) = run_of r w.
Proof. unfold run_of. by destruct (reported_fields c w) as (_ & _ & -> & _). Qed.

(** A computation that neither reads nor writes the flag of the running
    action. *)
Definition blind {A} (m : M A) : Prop :=
  forall b w, m (set_acting b w) = (let '(x, w') := m w in (x, set_acting b w')).

Lemma blind_acting {A} (m : M A) w : blind m -> acting (m w).2 = acting w.
Proof.
  intros Hb. pose proof (Hb (acting w) w) as H.
  rewrite set_acting_same in H by done.
  destruct (m w) as [x w'] eqn:Hm. simpl.
  apply (f_equal (fun p => acting p.2)) in H. exact H.
Qed.

Lemma blind_modify (f : world -> world) :
  (forall b w, f (set_acting b w) = set_acting b (f w)) -> blind (modify f).
Proof. intros Hf b w. unfold modify. by rewrite Hf. Qed.

Lemma gen_resume_blind r s : blind (gen_resume r s).
Proof.
  intros b w. unfold gen_resume.
  change (run_of r (set_acting b w)) with (run_of r w).
  destruct (run_gen (run_of r w)) as [|g|]; [done| |by destruct s].
  by destruct (resume g s).
Qed.

Lemma settle_acting h o b w : settle h o (set_acting b w) = set_acting b (settle h o w).
Proof.
  unfold settle. change (status h (set_acting b w)) with (status h w).
  destruct (status h w); [done|]. by destruct h.
Qed.

Lemma resolve_promise_acting r v b w :
  resolve_promise r v (set_acting b w) = set_acting b (resolve_promise r v w).
Proof.
  unfold resolve_promise. destruct v; try apply settle_acting.
  case_decide; [apply settle_acting|done].
Qed.

Lemma resolve_blind r v : blind (resolve r v).
Proof. apply blind_modify. intros b w. apply resolve_promise_acting. Qed.

Lemma reject_blind r e : blind (reject r e).
Proof. apply blind_modify. intros b w. apply settle_acting. Qed.

(** A call of [wrap] at top level reports the step and runs the function; a
    call within a running action only runs the function. *)
Lemma wrap_reported {A} r (fn : value -> M A) mode arg w :
  blind (fn arg) ->
  wrap r fn mode arg w = fn arg (reported (step_record r mode arg w) w).
Proof.
  intros Hb. unfold wrap, createActionInvoker, reported. simpl.
  fold (step_record r mode arg w).
  destruct (acting w) eqn:Ha; [done|].
  fold (emit (step_record r mode arg w) w).
  rewrite (Hb true (emit (step_record r mode arg w) w)).
  pose proof (blind_acting (fn arg) (emit (step_record r mode arg w) w) Hb) as Hact.
  destruct (fn arg (emit (step_record r mode arg w) w)) as [x w'].
  simpl in Hact. f_equal.
  change (set_acting false w' = w'). apply set_acting_same. by rewrite Hact.
Qed.

(** What a sub-step of run [r] leaves before it registers its continuation:
    the log with the record of the step, when the step is reported, and,
    when the generator ran, its new state. *)
Definition resumed (r : nat) (mode : IActionAsyncMode) (s : signal)
    (og : option genobj) (w : world) : world :=
  let arg := match s with Next v => v | Throw e => e end in
  let w1 := reported (step_record r mode arg w) w in
  match og with Some g => set_gen r g w1 | None => w1 end.

Lemma advance_eq r mode s w :
  advance r mode s w =
  match gen_resume r s
          (reported (step_record r mode (match s with Next v => v | Throw e => e end) w) w)
  with
  | (Thrown e, w') => setImmediate (TThrow r e) w'
  | (Ok ret, w') => next r ret w'
  end.
Proof.
  unfold advance. rewrite wrap_reported by apply gen_resume_blind. done.
Qed.

(** The four ways a sub-step ends: a callback handed to [setImmediate], a
    reaction registered on a pending promise, a job queued on a settled one,
    or an exception that escapes. *)
Inductive advance_spec (r : nat) (mode : IActionAsyncMode) (s : signal)
    (w : world) : res unit * world -> Prop :=
| adv_task og t :
    task_run t = r ->
    advance_spec r mode s w
      (Ok tt, set_immediates (immediates (resumed r mode s og w) ++ [t])
                (resumed r mode s og w))
| adv_wait og h :
    status h (resumed r mode s og w) = None ->
    advance_spec r mode s w
      (Ok tt, set_waiting (waiting (resumed r mode s og w) ++ [(h, Resume r)])
                (resumed r mode s og w))
| adv_job og h o :
    status h (resumed r mode s og w) = Some o ->
    advance_spec r mode s w
      (Ok tt, set_microtasks (microtasks (resumed r mode s og w) ++ [MJob (Job r o)])
                (resumed r mode s og w))
| adv_fail og e :
    advance_spec r mode s w (Thrown e, resumed r mode s og w).

Lemma advance_cases r mode s w : advance_spec r mode s w (advance r mode s w).
Proof.
  rewrite advance_eq. unfold gen_resume. rewrite run_of_reported.
  destruct (run_gen (run_of r w)) as [|g|] eqn:Hg.
  - apply (adv_task r mode s w None (TThrow r _)). reflexivity.
  - destruct (resume g s) as [v g'|v|e] eqn:Hres.
    + unfold next. simpl.
      destruct v; simpl;
        try (apply (adv_fail r mode s w (Some (GSuspended g'))));
        try (destruct (negb _); simpl;
             [ apply (adv_fail r mode s w (Some (GSuspended g')))
             | apply (adv_fail r mode s w (Some (GSuspended g'))) ]).
      unfold then_, modify.
      match goal with |- context [status h ?m] => destruct (status h m) eqn:Hst end.
      * by apply (adv_job r mode s w (Some (GSuspended g')) h o).
      * by apply (adv_wait r mode s w (Some (GSuspended g')) h).
    + apply (adv_task r mode s w (Some GClosed) (TReturn r v)). reflexivity.
    + apply (adv_task r mode s w (Some GClosed) (TThrow r e)). reflexivity.
  - destruct s as [v|e].
    + apply (adv_task r mode (Next v) w None (TReturn r VUndefined)). reflexivity.
    + apply (adv_task r mode (Throw e) w None (TThrow r e)). reflexivity.
Qed.

Lemma resumed_fields r mode s og w :
  let m := resumed r mode s og w in
  generatorId m = generatorId w /\ invokers m = invokers w /\
  ops m = ops w /\ waiting m = waiting w /\ microtasks m = microtasks w /\
  immediates m = immediates w /\ unhandled m = unhandled w /\
  length (runs m) = length (runs w) /\
  log m = log w ++
          reports w (step_record r mode (match s with Next v => v | Throw e => e end) w).
Proof.
  unfold resumed.
  destruct (reported_fields
              (step_record r mode (match s with Next v => v | Throw e => e end) w) w)
    as (H1 & H2 & H3 & H4 & H5 & H6 & H7 & H8 & H9).
  destruct og; simpl; rewrite ?length_alter, ?H3, ?reported_log; done.
Qed.

Lemma resumed_acting r mode s og w : acting (resumed r mode s og w) = acting w.
Proof.
  unfold resumed.
  destruct (reported_fields
              (step_record r mode (match s with Next v => v | Throw e => e end) w) w)
    as (_ & _ & _ & _ & _ & _ & _ & _ & H9).
  by destruct og.
Qed.

Lemma resumed_run_ne r r' mode s og w :
  r' ≠ r -> run_of r' (resumed r mode s og w) = run_of r' w.
Proof.
  intros Hne. unfold resumed. destruct og; [|apply run_of_reported].
  by rewrite run_of_set_gen_ne, run_of_reported.
Qed.

Lemma resumed_static r r' mode s og w :
  let m := resumed r mode s og w in
  run_name (run_of r' m) = run_name (run_of r' w) /\
  run_runId (run_of r' m) = run_runId (run_of r' w) /\
  run_ctx (run_of r' m) = run_ctx (run_of r' w) /\
  run_result (run_of r' m) = run_result (run_of r' w).
Proof.
  unfold resumed. destruct og as [g|]; simpl.
  - rewrite <- (run_of_reported r'
        (step_record r mode (match s with Next v => v | Throw e => e end) w) w).
    exact (set_gen_static r r' g (reported _ w)).
  - by rewrite run_of_reported.
Qed.

Lemma resumed_pending r r' mode s og w :
  waits_of r' (resumed r mode s og w) = waits_of r' w /\
  jobs_of r' (resumed r mode s og w) = jobs_of r' w /\
  tasks_of r' (resumed r mode s og w) = tasks_of r' w.
Proof.
  unfold waits_of, jobs_of, tasks_of.
  destruct (resumed_fields r mode s og w) as (_ & _ & _ & -> & -> & -> & _).
  done.
Qed.

Lemma resumed_adopting r r' mode s og w :
  adopting_of r' (resumed r mode s og w) = adopting_of r' w.
Proof.
  unfold adopting_of.
  destruct (resumed_fields r mode s og w) as (_ & _ & _ & -> & -> & _).
  done.
Qed.

Lemma advance_acting r mode s w : acting (advance r mode s w).2 = acting w.
Proof.
  pose proof (advance_cases r mode s w) as Hc.
  inversion Hc as [og t Ht|og h Hst|og h o Hst|og e]; simpl;
    apply resumed_acting.
Qed.

(** Selecting by one test what was split by another. *)
Lemma filter_split_length {A} (P Q : A -> bool) (l : list A) :
  length (List.filter P (List.filter Q l)) +
  length (List.filter P (List.filter (fun x => negb (Q x)) l)) =
  length (List.filter P l).
Proof.
  induction l as [|x l IH]; [done|]. simpl.
  destruct (Q x) eqn:HQ; simpl; destruct (P x); simpl; lia.
Qed.

Lemma filter_map_length {A B} (P : B -> bool) (f : A -> B) (l : list A) :
  length (List.filter P (List.map f l)) = length (List.filter (fun x => P (f x)) l).
Proof.
  induction l as [|x l IH]; [done|]. simpl.
  destruct (P (f x)); simpl; lia.
Qed.

Lemma filter_same_length {A} (P Q : A -> bool) (l : list A) :
  (forall x, P x = Q x) -> length (List.filter P l) = length (List.filter Q l).
Proof.
  intros HPQ. induction l as [|x l IH]; [done|]. simpl.
  rewrite HPQ. destruct (Q x); simpl; lia.
Qed.

(** Settling a promise turns reactions into jobs and loses none: whatever is
    counted among the reactions and, as jobs, among the jobs, is counted
    after as before. *)
Lemma settle_count (P : reaction -> bool) (Q : microtask -> bool) h o w :
  (forall o' x, Q (react o' x) = P x.2) ->
  length (List.filter (fun x => P x.2) (waiting (settle h o w))) +
  length (List.filter Q (microtasks (settle h o w))) =
  length (List.filter (fun x => P x.2) (waiting w)) +
  length (List.filter Q (microtasks w)).
Proof.
  intros HPQ. unfold settle. destruct (status h w); [done|].
  cbn [waiting microtasks set_microtasks set_waiting].
  rewrite List.filter_app, length_app, filter_map_length.
  rewrite (filter_same_length (fun x => Q (react o x)) (fun x => P x.2)) by apply HPQ.
  pose proof (filter_split_length (fun x : handle * reaction => P x.2) (on h) (waiting w)).
  lia.
Qed.

(** The reactions and jobs of a run, counted together: a settlement turns
    the one into the other. *)
Definition awaiting (r : nat) (w : world) : nat :=
  length (waits_of r w) + length (jobs_of r w).

Lemma pending_awaiting r w : pending_of r w = awaiting r w + length (tasks_of r w).
Proof. reflexivity. Qed.

Lemma job_of_react r o x : job_of r (react o x) = resumes r x.2.
Proof. unfold react. by destruct x.2. Qed.

Lemma follows_react r o x : follows r (react o x) = adopts r x.2.
Proof. unfold react. by destruct x.2. Qed.

(** Settling a promise moves reactions to the job queue and loses none. *)
Lemma settle_pending h o r w :
  length (waits_of r (settle h o w)) + length (jobs_of r (settle h o w)) =
  length (waits_of r w) + length (jobs_of r w) /\
  tasks_of r (settle h o w) = tasks_of r w.
Proof.
  split.
  - apply (settle_count (resumes r) (job_of r)). intros. apply job_of_react.
  - unfold settle. destruct (status h w); [done|]. unfold tasks_of. by destruct h.
Qed.

Lemma settle_adopting h o r w : adopting_of r (settle h o w) = adopting_of r w.
Proof. apply (settle_count (adopts r) (follows r)). intros. apply follows_react. Qed.

Lemma settle_runs h o w :
  length (runs (settle h o w)) = length (runs w) /\
  (forall r, h ≠ HRun r -> run_of r (settle h o w) = run_of r w) /\
  (forall r, run_name (run_of r (settle h o w)) = run_name (run_of r w) /\
             run_runId (run_of r (settle h o w)) = run_runId (run_of r w) /\
             run_ctx (run_of r (settle h o w)) = run_ctx (run_of r w) /\
             run_gen (run_of r (settle h o w)) = run_gen (run_of r w)).
Proof.
  unfold settle. destruct (status h w); [done|].
  destruct h as [n|r0]; simpl.
  - done.
  - change (set_microtasks ?a (set_waiting ?b ?x)) with
      (set_microtasks a (set_waiting b x)).
    split; [apply length_alter|]. split.
    + intros r Hne. apply (run_of_set_result_ne r0 r o w). congruence.
    + intros r. apply (set_result_static r0 r o w).
Qed.

Lemma settle_fields h o w :
  generatorId (settle h o w) = generatorId w /\
  invokers (settle h o w) = invokers w /\
  log (settle h o w) = log w /\
  immediates (settle h o w) = immediates w /\
  unhandled (settle h o w) = unhandled w.
Proof.
  unfold settle. destruct (status h w); [done|]. by destruct h.
Qed.

Lemma settle_keeps_acting h o w : acting (settle h o w) = acting w.
Proof. unfold settle. destruct (status h w); [done|]. by destruct h. Qed.

(** A settled promise stays as it is, and settling a pending one gives it the
    outcome. *)
Lemma settle_status h o w :
  status h (settle h o w) = Some (default o (status h w)) \/
  (exists r, h = HRun r /\ length (runs w) <= r).
Proof.
  unfold settle. destruct (status h w) as [o'|] eqn:Hst; [by left; rewrite Hst|].
  destruct h as [n|r]; simpl.
  - left. apply lookup_insert_eq.
  - destruct (decide (r < length (runs w))) as [Hlt|Hge]; [left|right; exists r; split; [done|lia]].
    change (run_result (run_of r (set_result r o w)) = Some o).
    by rewrite run_of_set_result.
Qed.

Lemma settle_pending_of h o r w : pending_of r (settle h o w) = pending_of r w.
Proof.
  unfold pending_of. destruct (settle_pending h o r w) as [H1 H2].
  rewrite H2. lia.
Qed.

Lemma settle_view h o r w :
  awaiting r (settle h o w) = awaiting r w /\
  tasks_of r (settle h o w) = tasks_of r w.
Proof. unfold awaiting. apply settle_pending. Qed.

(** A promise that is settled is not settled again. *)
Lemma settle_stable h o r o' w :
  run_result (run_of r w) = Some o' -> run_result (run_of r (settle h o w)) = Some o'.
Proof.
  intros Hr. destruct (decide (h = HRun r)) as [->|Hne].
  - unfold settle. simpl. by rewrite Hr.
  - destruct (settle_runs h o w) as (_ & Hrun & _). by rewrite Hrun.
Qed.

(** *** What the jobs of the runtime leave alone *)

(** What the runtime does when it settles a promise, resolves one or runs a
    job of its own: it reports nothing, runs no generator and queues nothing
    for a generator. *)
Record quiet (w w' : world) : Prop := Quiet {
  qt_generatorId : generatorId w' = generatorId w;
  qt_invokers : invokers w' = invokers w;
  qt_log : log w' = log w;
  qt_immediates : immediates w' = immediates w;
  qt_unhandled : unhandled w' = unhandled w;
  qt_acting : acting w' = acting w;
  qt_length : length (runs w') = length (runs w);
  qt_static : forall r, run_name (run_of r w') = run_name (run_of r w) /\
                        run_runId (run_of r w') = run_runId (run_of r w) /\
                        run_ctx (run_of r w') = run_ctx (run_of r w) /\
                        run_gen (run_of r w') = run_gen (run_of r w);
  qt_awaiting : forall r, awaiting r w' = awaiting r w;
  qt_stable : forall r o, run_result (run_of r w) = Some o ->
                          run_result (run_of r w') = Some o
}.

Lemma quiet_tasks w w' r : quiet w w' -> tasks_of r w' = tasks_of r w.
Proof. intros Hq. unfold tasks_of. by rewrite (qt_immediates _ _ Hq). Qed.

Lemma quiet_pending w w' r : quiet w w' -> pending_of r w' = pending_of r w.
Proof.
  intros Hq. by rewrite !pending_awaiting, (qt_awaiting _ _ Hq), (quiet_tasks _ _ r Hq).
Qed.

Lemma settle_quiet h o w : quiet w (settle h o w).
Proof.
  destruct (settle_fields h o w) as (H1 & H2 & H3 & H4 & H5).
  destruct (settle_runs h o w) as (H6 & _ & H7).
  split; try done.
  - apply settle_keeps_acting.
  - intros r. apply settle_view.
  - intros r o'. apply settle_stable.
Qed.

(** A job pushed on the queue that is no reaction job of a generator. *)
Lemma push_quiet m w :
  (forall r, job_of r m = false) -> quiet w (set_microtasks (microtasks w ++ [m]) w).
Proof.
  intros Hm. split; try done. intros r. unfold awaiting, waits_of, jobs_of. simpl.
  rewrite List.filter_app, length_app. simpl. rewrite Hm. simpl. lia.
Qed.

Lemma resolve_promise_quiet r v w : quiet w (resolve_promise r v w).
Proof.
  unfold resolve_promise. destruct v; try apply settle_quiet.
  case_decide; [apply settle_quiet|by apply push_quiet].
Qed.

Lemma run_adopt_quiet r o w : quiet w (run_adopt r o w).
Proof. destruct o; [apply resolve_promise_quiet|apply settle_quiet]. Qed.

Lemma run_then_quiet r h w : quiet w (run_then r h w).
Proof.
  unfold run_then. destruct (status h w); [by apply push_quiet|].
  split; try done. intros r'. unfold awaiting, waits_of, jobs_of. simpl.
  rewrite List.filter_app, length_app. simpl. lia.
Qed.

(** Resolving the promise of run [r] touches no other run. *)
Lemma resolve_promise_other r v r' w :
  r' ≠ r -> run_of r' (resolve_promise r v w) = run_of r' w.
Proof.
  intros Hne.
  assert (forall o, run_of r' (settle (HRun r) o w) = run_of r' w) as Hs.
  { intros o. destruct (settle_runs (HRun r) o w) as (_ & Hrun & _).
    apply Hrun. congruence. }
  unfold resolve_promise. destruct v; try apply Hs.
  case_decide; [apply Hs|done].
Qed.

Lemma run_adopt_other r o r' w :
  r' ≠ r -> run_of r' (run_adopt r o w) = run_of r' w.
Proof.
  intros Hne. destruct o; [by apply resolve_promise_other|].
  destruct (settle_runs (HRun r) (Rejected e) w) as (_ & Hrun & _).
  apply Hrun. congruence.
Qed.

Lemma run_then_runs r h w : runs (run_then r h w) = runs w.
Proof. unfold run_then. by destruct (status h w). Qed.

(** How the number of adoptions of a run changes. *)
Lemma push_adopting m r w :
  adopting_of r (set_microtasks (microtasks w ++ [m]) w) =
  adopting_of r w + (if follows r m then 1 else 0).
Proof.
  unfold adopting_of. simpl. rewrite List.filter_app, length_app. simpl.
  destruct (follows r m); simpl; lia.
Qed.

Lemma resolve_promise_adopting r v r' w :
  adopting_of r' (resolve_promise r v w) <= adopting_of r' w + (if decide (r' = r) then 1 else 0) /\
  adopting_of r' w <= adopting_of r' (resolve_promise r v w).
Proof.
  unfold resolve_promise.
  destruct v; try (rewrite settle_adopting; case_decide; lia).
  case_decide; [rewrite settle_adopting; case_decide; lia|].
  rewrite push_adopting. simpl.
  case_decide as Hd.
  - subst. rewrite Nat.eqb_refl. lia.
  - destruct (Nat.eqb_spec r r'); [congruence|lia].
Qed.

Lemma run_adopt_adopting r o r' w :
  adopting_of r' (run_adopt r o w) <= adopting_of r' w + (if decide (r' = r) then 1 else 0) /\
  adopting_of r' w <= adopting_of r' (run_adopt r o w).
Proof.
  destruct o; [apply resolve_promise_adopting|].
  simpl. rewrite settle_adopting. case_decide; lia.
Qed.

Lemma run_then_adopting r h r' w :
  adopting_of r' (run_then r h w) = adopting_of r' w + (if decide (r' = r) then 1 else 0).
Proof.
  unfold run_then. destruct (status h w).
  - rewrite push_adopting. simpl. case_decide as Hd.
    + subst. by rewrite Nat.eqb_refl.
    + by destruct (Nat.eqb_spec r r'); [congruence|].
  - unfold adopting_of. simpl. rewrite List.filter_app, length_app. simpl.
    case_decide as Hd.
    + subst. rewrite Nat.eqb_refl. simpl. lia.
    + destruct (Nat.eqb_spec r r'); [congruence|simpl; lia].
Qed.

(** *** Closed forms of the callbacks *)


(** The record that the callback of [setImmediate] reports. *)
Definition task_record (t : task) (w : world) : call :=
  match t with
  | TReturn r v => step_record r ModeReturn v w
  | TThrow r e => step_record r ModeThrow e w
  end.

(** What the callback of [setImmediate] does to the promise of its run. *)
Definition finish (t : task) (w : world) : world :=
  match t with
  | TReturn r v => resolve_promise r v w
  | TThrow r e => settle (HRun r) (Rejected e) w
  end.

Lemma run_task_eq t w :
  run_task t w = (Ok tt, finish t (reported (task_record t w) w)).
Proof.
  destruct t as [r v|r e]; unfold run_task.
  - rewrite wrap_reported by apply resolve_blind. reflexivity.
  - rewrite wrap_reported by apply reject_blind. reflexivity.
Qed.

Lemma finish_quiet t w : quiet w (finish t w).
Proof. destruct t; [apply resolve_promise_quiet|apply settle_quiet]. Qed.

Lemma finish_other t r' w : r' ≠ task_run t -> run_of r' (finish t w) = run_of r' w.
Proof.
  intros Hne. destruct t as [r v|r e]; simpl in *.
  - by apply resolve_promise_other.
  - destruct (settle_runs (HRun r) (Rejected e) w) as (_ & Hrun & _).
    apply Hrun. congruence.
Qed.

Lemma finish_adopting t r' w :
  adopting_of r' (finish t w) <=
    adopting_of r' w + (if decide (r' = task_run t) then 1 else 0) /\
  adopting_of r' w <= adopting_of r' (finish t w).
Proof.
  destruct t as [r v|r e]; simpl.
  - apply resolve_promise_adopting.
  - rewrite settle_adopting. case_decide; lia.
Qed.

(** The promise of the run after its callback: rejected with the error;
    fulfilled with the value when the value is no promise; rejected when the
    value is the promise itself; and still pending, with the job queued that
    makes it follow the promise, when the value is another promise. *)
Lemma finish_result t w :
  task_run t < length (runs w) -> run_result (run_of (task_run t) w) = None ->
  match t with
  | TThrow r e => run_result (run_of r (finish t w)) = Some (Rejected e)
  | TReturn r (VPromise h) =>
      if decide (h = HRun r)
      then run_result (run_of r (finish t w)) = Some (Rejected chaining_cycle)
      else run_result (run_of r (finish t w)) = None /\
           microtasks (finish t w) = microtasks w ++ [MThen r h] /\
           waiting (finish t w) = waiting w
  | TReturn r v => run_result (run_of r (finish t w)) = Some (Fulfilled v)
  end.
Proof.
  intros Hlt Hnone.
  assert (forall r o, r < length (runs w) -> run_result (run_of r w) = None ->
            run_result (run_of r (settle (HRun r) o w)) = Some o) as Hs.
  { intros r o Hr Hn.
    destruct (settle_status (HRun r) o w) as [H|(r' & Heq & Hge)].
    - simpl in H. rewrite H. f_equal.
      change (default o (run_result (run_of r w)) = o). by rewrite Hn.
    - inversion Heq; subst r'. lia. }
  destruct t as [r v|r e]; simpl in *; [|by apply Hs].
  destruct v; try (by apply Hs).
  unfold resolve_promise. case_decide; [by apply Hs|done].
Qed.

(** The world in which the executor of a new call starts the generator: the
    closure is allocated, the call is reported under mode [invoke], when it
    is a top-level call, and [gen] is assigned. *)
Definition started (x : invoker) (ctx : node) (args : list value) (w : world) : world :=
  set_gen (length (runs w)) (GSuspended (inv_generator x ctx args))
    (reported (Call (inv_name x) ModeInvoke (inv_runId x) ctx args)
       (set_runs (runs w ++ [Run (inv_name x) (inv_runId x) ctx GUndefined None]) w)).

(** The call runs the kick-off within the action that the call is, and
    leaves the flag of the running action as it found it. *)
Lemma asyncAction_eq x ctx args w :
  asyncAction x ctx args w =
  match advance (length (runs w)) ModeYield (Next VUndefined)
          (set_acting true (started x ctx args w)) with
  | (Ok _, w') => (Ok (VPromise (HRun (length (runs w)))), set_acting (acting w) w')
  | (Thrown e, w') =>
      (Ok (VPromise (HRun (length (runs w)))),
       settle (HRun (length (runs w))) (Rejected e) (set_acting (acting w) w'))
  end.
Proof.
  destruct w as [gi inv lg rs op wt mi im un ac].
  destruct ac;
    unfold asyncAction, createActionInvoker, asyncActionInit, bind, modify, started,
      reported; cbn [acting set_runs runs set_log log].
  - pose proof (advance_acting (length rs) ModeYield (Next VUndefined)
        (set_acting true
           (set_gen (length rs) (GSuspended (inv_generator x ctx args))
              (World gi inv lg (rs ++ [Run (inv_name x) (inv_runId x) ctx GUndefined None])
                 op wt mi im un true)))) as Hact.
    change (onFulfilled (length rs) VUndefined) with
      (advance (length rs) ModeYield (Next VUndefined)).
    change (set_gen (length rs) (GSuspended (inv_generator x ctx args))
              (World gi inv lg (rs ++ [Run (inv_name x) (inv_runId x) ctx GUndefined None])
                 op wt mi im un true))
      with (set_acting true
              (set_gen (length rs) (GSuspended (inv_generator x ctx args))
                 (World gi inv lg
                    (rs ++ [Run (inv_name x) (inv_runId x) ctx GUndefined None])
                    op wt mi im un true))).
    destruct (advance _ _ _ _) as [res w']. simpl in Hact.
    rewrite (set_acting_same true w' Hact). done.
  - change (onFulfilled (length rs) VUndefined) with
      (advance (length rs) ModeYield (Next VUndefined)).
    match goal with |- context [advance ?r ?m ?s ?w0] =>
      change (advance r m s w0) with
        (advance r m s
           (set_acting true
              (set_gen (length rs) (GSuspended (inv_generator x ctx args))
                 (emit (Call (inv_name x) ModeInvoke (inv_runId x) ctx args)
                    (World gi inv lg
                       (rs ++ [Run (inv_name x) (inv_runId x) ctx GUndefined None])
                       op wt mi im un false))))) end.
    destruct (advance _ _ _ _) as [[[]|e] w']; done.
Qed.

Lemma started_fields x ctx args w :
  let m := started x ctx args w in
  generatorId m = generatorId w /\ invokers m = invokers w /\
  ops m = ops w /\ waiting m = waiting w /\ microtasks m = microtasks w /\
  immediates m = immediates w /\ unhandled m = unhandled w /\
  length (runs m) = S (length (runs w)) /\
  log m = log w ++ reports w (Call (inv_name x) ModeInvoke (inv_runId x) ctx args).
Proof.
  unfold started.
  set (w1 := set_runs (runs w ++ [Run (inv_name x) (inv_runId x) ctx GUndefined None]) w).
  destruct (reported_fields (Call (inv_name x) ModeInvoke (inv_runId x) ctx args) w1)
    as (H1 & H2 & H3 & H4 & H5 & H6 & H7 & H8 & H9).
  simpl. rewrite length_alter, H3, reported_log. unfold w1. simpl.
  rewrite length_app. simpl. repeat split; try done. lia.
Qed.

Lemma started_run_old x ctx args w r :
  r < length (runs w) -> run_of r (started x ctx args w) = run_of r w.
Proof.
  intros Hlt. unfold started. rewrite run_of_set_gen_ne by lia.
  rewrite run_of_reported. unfold run_of. simpl. by rewrite lookup_app_l.
Qed.

Lemma started_run_new x ctx args w :
  run_of (length (runs w)) (started x ctx args w) =
  Run (inv_name x) (inv_runId x) ctx (GSuspended (inv_generator x ctx args)) None.
Proof.
  unfold started. rewrite run_of_set_gen.
  - rewrite run_of_reported. unfold run_of. simpl.
    rewrite lookup_app_r by lia. by rewrite Nat.sub_diag.
  - destruct (reported_fields (Call (inv_name x) ModeInvoke (inv_runId x) ctx args)
                (set_runs (runs w ++ [Run (inv_name x) (inv_runId x) ctx GUndefined None]) w))
      as (_ & _ & -> & _).
    simpl. rewrite length_app. simpl. lia.
Qed.

Lemma started_counts x ctx args w r :
  awaiting r (started x ctx args w) = awaiting r w /\
  tasks_of r (started x ctx args w) = tasks_of r w /\
  adopting_of r (started x ctx args w) = adopting_of r w.
Proof.
  destruct (started_fields x ctx args w) as (_ & _ & _ & Hwt & Hmi & Him & _).
  unfold awaiting, waits_of, jobs_of, tasks_of, adopting_of. by rewrite Hwt, Hmi, Him.
Qed.

(** A sub-step adds exactly one continuation of its own run when it returns,
    none when it raises, and touches no other run. *)
Lemma advance_frame r mode s w x w' :
  advance r mode s w = (x, w') ->
  (forall r', pending_of r' w' =
     pending_of r' w +
     (if decide (r' = r) then match x with Ok _ => 1 | Thrown _ => 0 end else 0)) /\
  length (runs w') = length (runs w) /\
  (forall r', r' ≠ r -> run_of r' w' = run_of r' w) /\
  (forall r', run_name (run_of r' w') = run_name (run_of r' w) /\
              run_runId (run_of r' w') = run_runId (run_of r' w) /\
              run_ctx (run_of r' w') = run_ctx (run_of r' w) /\
              run_result (run_of r' w') = run_result (run_of r' w)) /\
  generatorId w' = generatorId w /\ invokers w' = invokers w /\
  ops w' = ops w /\ unhandled w' = unhandled w /\
  log w' = log w ++
           reports w (step_record r mode (match s with Next v => v | Throw e => e end) w).
Proof.
  intros Heq. pose proof (advance_cases r mode s w) as Hc. rewrite Heq in Hc.
  inversion Hc as [og t Ht|og h Hst|og h o Hst|og e]; subst x w'; clear Hc;
    destruct (resumed_fields r mode s og w)
      as (Hgi & Hinv & Hops & Hwt & Hmi & Him & Hun & Hlen & Hlog);
    (split; [|split; [|split; [|split]]]);
    try (simpl; tauto);
    try (intros r'; exact (resumed_static r r' mode s og w));
    try (intros r' Hne; exact (resumed_run_ne r r' mode s og w Hne));
    intros r';
    destruct (resumed_pending r r' mode s og w) as (Hw' & Hj' & Ht');
    unfold pending_of, waits_of, jobs_of, tasks_of in *; simpl;
    rewrite ?Hwt, ?Hmi, ?Him in *; rewrite ?List.filter_app, ?length_app; simpl;
    try rewrite Ht; simpl;
    destruct (decide (r' = r)) as [->|Hne];
    rewrite ?Nat.eqb_refl; simpl; try lia;
    (destruct (Nat.eqb_spec r r'); [congruence|simpl; lia]).
Qed.

Lemma advance_adopting r mode s w r' :
  adopting_of r' (advance r mode s w).2 = adopting_of r' w.
Proof.
  pose proof (advance_cases r mode s w) as Hc.
  inversion Hc as [og t Ht|og h Hst|og h o Hst|og e]; simpl;
    rewrite <- (resumed_adopting r r' mode s og w);
    unfold adopting_of; simpl;
    rewrite ?List.filter_app, ?length_app; simpl; lia.
Qed.

(** *** What a sub-step does, by what the generator produced *)

Definition signal_arg (s : signal) : value :=
  match s with Next v => v | Throw e => e end.

Definition invalid_yield : value :=
  VError "[mobx-state-tree] Only promises can be yielded to `async`, got: [object Object]".

Lemma advance_returned r mode s w g v :
  run_gen (run_of r w) = GSuspended g -> resume g s = Returned v ->
  advance r mode s w =
  (Ok tt, set_immediates (immediates w ++ [TReturn r v])
            (resumed r mode s (Some GClosed) w)).
Proof.
  intros Hg Hres. rewrite advance_eq. unfold gen_resume.
  rewrite run_of_reported, Hg, Hres. unfold next, setImmediate, modify, resumed, reported. simpl.
  by destruct (acting w).
Qed.

Lemma advance_raised r mode s w g e :
  run_gen (run_of r w) = GSuspended g -> resume g s = Raised e ->
  advance r mode s w =
  (Ok tt, set_immediates (immediates w ++ [TThrow r e])
            (resumed r mode s (Some GClosed) w)).
Proof.
  intros Hg Hres. rewrite advance_eq. unfold gen_resume.
  rewrite run_of_reported, Hg, Hres. unfold setImmediate, modify, resumed, reported. simpl.
  by destruct (acting w).
Qed.

Lemma advance_awaits r mode s w g h g' :
  run_gen (run_of r w) = GSuspended g -> resume g s = Yielded (VPromise h) g' ->
  advance r mode s w =
  then_ h r (resumed r mode s (Some (GSuspended g')) w).
Proof.
  intros Hg Hres. rewrite advance_eq. unfold gen_resume.
  by rewrite run_of_reported, Hg, Hres.
Qed.

Lemma advance_invalid r mode s w g v g' :
  run_gen (run_of r w) = GSuspended g -> resume g s = Yielded v g' ->
  has_then v = false ->
  advance r mode s w =
  (Thrown invalid_yield, resumed r mode s (Some (GSuspended g')) w).
Proof.
  intros Hg Hres Hv. rewrite advance_eq. unfold gen_resume.
  rewrite run_of_reported, Hg, Hres. unfold next. simpl. rewrite Hv.
  rewrite orb_true_r. reflexivity.
Qed.

Lemma then_view h r r' w :
  let w' := (then_ h r w).2 in
  awaiting r' w' = awaiting r' w + (if decide (r' = r) then 1 else 0) /\
  tasks_of r' w' = tasks_of r' w /\ runs w' = runs w /\ log w' = log w /\
  invokers w' = invokers w.
Proof.
  unfold then_, modify, awaiting, waits_of, jobs_of, tasks_of. simpl.
  destruct (status h w); simpl; rewrite List.filter_app, length_app; simpl;
    (case_decide as Hd;
     [ subst; rewrite Nat.eqb_refl; simpl; repeat split; lia
     | destruct (Nat.eqb_spec r r'); [congruence|]; simpl; repeat split; lia ]).
Qed.

(** A sub-step of run [r] leaves every other run as it was. *)
Lemma advance_others r r' mode s w x w' :
  r' ≠ r -> advance r mode s w = (x, w') ->
  run_of r' w' = run_of r' w /\ awaiting r' w' = awaiting r' w /\
  tasks_of r' w' = tasks_of r' w.
Proof.
  intros Hne Heq. pose proof (advance_cases r mode s w) as Hc. rewrite Heq in Hc.
  inversion Hc as [og t Ht|og h Hst|og h o Hst|og e]; subst x w'; clear Hc;
    destruct (resumed_pending r r' mode s og w) as (Hw' & Hj' & Ht');
    (split; [exact (resumed_run_ne r r' mode s og w Hne)|]);
    unfold awaiting, waits_of, jobs_of, tasks_of in *; simpl;
    rewrite ?List.filter_app, ?length_app, ?Hw', ?Hj', ?Ht'; simpl;
    try rewrite Ht;
    (destruct (Nat.eqb_spec r r'); [congruence|]); simpl;
    rewrite ?app_nil_r; split; (lia || done).
Qed.

Definition job_mode (j : job) : IActionAsyncMode :=
  match job_outcome j with Fulfilled _ => ModeYield | Rejected _ => ModeYieldError end.

Definition job_signal (j : job) : signal :=
  match job_outcome j with Fulfilled v => Next v | Rejected e => Throw e end.

Lemma run_job_eq j w :
  run_job j w =
  match advance (job_run j) (job_mode j) (job_signal j) w with
  | (Ok _, w') => w'
  | (Thrown e, w') => set_unhandled (unhandled w' ++ [e]) w'
  end.
Proof. destruct j as [r [v|e]]; reflexivity. Qed.

(** *** The turn of the call *)

(** What a call of invoker [x] leaves, by what the generator does when it is
    started: the closure of the new run carries the name and the identifier
    of the invoker and the receiver of the call; the call is reported under
    mode [invoke] when it is a top-level call, and the kick-off, which runs
    within the call, is not reported; and the run is left with a reaction or
    a job, with a [setImmediate] callback, or rejected. *)
Lemma call_view w x ctx args :
  let r := length (runs w) in
  let w' := (asyncAction x ctx args w).2 in
  (asyncAction x ctx args w).1 = Ok (VPromise (HRun r)) /\
  length (runs w') = S r /\
  (forall r', r' < r -> run_of r' w' = run_of r' w) /\
  run_name (run_of r w') = inv_name x /\
  run_runId (run_of r w') = inv_runId x /\
  run_ctx (run_of r w') = ctx /\
  log w' = log w ++ reports w (Call (inv_name x) ModeInvoke (inv_runId x) ctx args) /\
  match resume (inv_generator x ctx args) (Next VUndefined) with
  | Yielded (VPromise h) g' =>
      run_gen (run_of r w') = GSuspended g' /\ run_result (run_of r w') = None /\
      awaiting r w' = awaiting r w + 1 /\ tasks_of r w' = tasks_of r w
  | Yielded _ _ =>
      run_result (run_of r w') = Some (Rejected invalid_yield) /\
      awaiting r w' = awaiting r w /\ tasks_of r w' = tasks_of r w
  | Returned v =>
      run_result (run_of r w') = None /\
      awaiting r w' = awaiting r w /\ tasks_of r w' = tasks_of r w ++ [TReturn r v]
  | Raised e =>
      run_result (run_of r w') = None /\
      awaiting r w' = awaiting r w /\ tasks_of r w' = tasks_of r w ++ [TThrow r e]
  end.
Proof.
  intros r w'. subst w'. rewrite asyncAction_eq. fold r.
  set (m := set_acting true (started x ctx args w)).
  destruct (started_fields x ctx args w)
    as (_ & _ & _ & _ & _ & Him0 & _ & Hlen0 & Hlog0).
  assert (length (runs m) = S r) as Hlenm by exact Hlen0.
  assert (log m = log w ++ reports w (Call (inv_name x) ModeInvoke (inv_runId x) ctx args))
    as Hlogm by exact Hlog0.
  assert (immediates m = immediates w) as Himm by exact Him0.
  assert (run_of r m = Run (inv_name x) (inv_runId x) ctx
                         (GSuspended (inv_generator x ctx args)) None) as Hnew.
  { exact (started_run_new x ctx args w). }
  assert (run_gen (run_of r m) = GSuspended (inv_generator x ctx args)) as Hg.
  { by rewrite Hnew. }
  assert (awaiting r m = awaiting r w /\ tasks_of r m = tasks_of r w) as [Ham Htm].
  { destruct (started_counts x ctx args w r) as (H1 & H2 & _). split; [exact H1|exact H2]. }
  destruct (advance r ModeYield (Next VUndefined) m) as [res w1] eqn:Hadv.
  destruct (advance_frame _ _ _ _ _ _ Hadv)
    as (_ & Hlen & Hne & Hst & _ & _ & _ & _ & Hlog).
  destruct (Hst r) as (Hname & Hrid & Hctx & Hres).
  rewrite Hnew in Hname, Hrid, Hctx, Hres. simpl in Hname, Hrid, Hctx, Hres.
  change (reports m ?c) with (@nil call) in Hlog. rewrite app_nil_r, Hlogm in Hlog.
  assert (forall r', r' < r -> run_of r' w1 = run_of r' w) as Hold.
  { intros r' Hr'. rewrite Hne by lia. exact (started_run_old x ctx args w r' Hr'). }
  set (W := set_acting (acting w) w1).
  assert (length (runs W) = S r) as HlenW by (change (length (runs w1) = S r); lia).
  assert (run_result (run_of r W) = None) as HresW by exact Hres.
  destruct (settle_runs (HRun r) (Rejected invalid_yield) W) as (Hlen2 & Hrun2 & Hst2).
  destruct (settle_fields (HRun r) (Rejected invalid_yield) W) as (_ & _ & Hlog2 & _).
  destruct (settle_view (HRun r) (Rejected invalid_yield) r W) as (Ha2 & Ht2).
  destruct (Hst2 r) as (Hname2 & Hrid2 & Hctx2 & _).
  assert (run_result (run_of r (settle (HRun r) (Rejected invalid_yield) W))
          = Some (Rejected invalid_yield)) as Hrej.
  { destruct (settle_status (HRun r) (Rejected invalid_yield) W) as [Hs|(r' & Heq & Hge)].
    - simpl in Hs. rewrite Hs. f_equal.
      change (default (Rejected invalid_yield) (run_result (run_of r W))
              = Rejected invalid_yield).
      by rewrite HresW.
    - inversion Heq; subst r'. lia. }
  assert (forall t, w1 = set_immediates (immediates m ++ [t])
                           (resumed r ModeYield (Next VUndefined) (Some GClosed) m) ->
            task_run t = r ->
            awaiting r w1 = awaiting r w /\ tasks_of r w1 = tasks_of r w ++ [t]) as Htask.
  { intros t -> Ht.
    destruct (resumed_pending r r ModeYield (Next VUndefined) (Some GClosed) m)
      as (Hw' & Hj' & Ht').
    split.
    - change (awaiting r (resumed r ModeYield (Next VUndefined) (Some GClosed) m)
              = awaiting r w).
      unfold awaiting. rewrite Hw', Hj'. exact Ham.
    - unfold tasks_of at 1. cbn [immediates set_immediates].
      rewrite List.filter_app. fold (tasks_of r m). rewrite Htm. simpl.
      by rewrite Ht, Nat.eqb_refl. }
  destruct (resume (inv_generator x ctx args) (Next VUndefined)) as [v g'|v|e] eqn:Hr.
  - destruct v;
      try (rewrite (advance_invalid _ _ _ _ _ _ g' Hg Hr eq_refl) in Hadv;
           assert (res = Thrown invalid_yield) as Hx by congruence;
           assert (w1 = resumed r ModeYield (Next VUndefined) (Some (GSuspended g')) m)
             as Hw1 by congruence;
           rewrite Hx; cbn [fst snd]; fold W;
           rewrite Hlen2, Hname2, Hrid2, Hctx2, Hlog2, Ha2, Ht2, Hrej;
           repeat (split; [done|]);
           split; [intros r' Hr'; rewrite Hrun2 by (intros [=]; lia); by apply Hold|];
           repeat (split; [done|]);
           change (awaiting r w1 = awaiting r w /\ tasks_of r w1 = tasks_of r w);
           rewrite Hw1;
           destruct (resumed_pending r r ModeYield (Next VUndefined)
                       (Some (GSuspended g')) m) as (Hw' & Hj' & Ht');
           rewrite <- Ham, <- Htm; unfold awaiting; by rewrite Hw', Hj', Ht').
    rewrite (advance_awaits _ _ _ _ _ _ _ Hg Hr) in Hadv.
    set (m' := resumed r ModeYield (Next VUndefined) (Some (GSuspended g')) m) in Hadv.
    destruct (then_view h r r m') as (Haw & Htk & Hruns & _).
    destruct (resumed_pending r r ModeYield (Next VUndefined) (Some (GSuspended g')) m)
      as (Hw' & Hj' & Ht'). fold m' in Hw', Hj', Ht'.
    assert ((then_ h r m').1 = Ok tt) as Hok by (unfold then_, modify; done).
    rewrite Hadv in Haw, Htk, Hruns, Hok. cbn [fst snd] in *. subst res.
    cbn [fst snd]. fold W. rewrite HlenW.
    repeat (split; [done|]).
    split; [|split; [done|split]].
    + change (run_gen (run_of r w1) = GSuspended g').
      unfold run_of. rewrite Hruns. fold (run_of r m'). unfold m', resumed.
      rewrite run_of_set_gen; [done|].
      destruct (reported_fields (step_record r ModeYield VUndefined m) m)
        as (_ & _ & -> & _). lia.
    + change (awaiting r w1 = awaiting r w + 1).
      rewrite Haw, decide_True by done. unfold awaiting at 1. rewrite Hw', Hj'.
      fold (awaiting r m). by rewrite Ham.
    + change (tasks_of r w1 = tasks_of r w). by rewrite Htk, Ht', Htm.
  - rewrite (advance_returned _ _ _ _ _ _ Hg Hr) in Hadv.
    assert (res = Ok tt) as Hx by congruence.
    destruct (Htask (TReturn r v) ltac:(congruence) eq_refl) as [Ha Ht].
    rewrite Hx. cbn [fst snd]. fold W. rewrite HlenW. done.
  - rewrite (advance_raised _ _ _ _ _ _ Hg Hr) in Hadv.
    assert (res = Ok tt) as Hx by congruence.
    destruct (Htask (TThrow r e) ltac:(congruence) eq_refl) as [Ha Ht].
    rewrite Hx. cbn [fst snd]. fold W. rewrite HlenW. done.
Qed.

(** *** The invariant of the event loop *)

Lemma resolve_promise_cases r v w :
  (exists o, resolve_promise r v w = settle (HRun r) o w) \/
  (exists h, resolve_promise r v w = set_microtasks (microtasks w ++ [MThen r h]) w).
Proof.
  unfold resolve_promise. destruct v; try (left; eexists; reflexivity).
  case_decide; [left|right]; eexists; reflexivity.
Qed.

Lemma run_adopt_cases r o w :
  (exists o', run_adopt r o w = settle (HRun r) o' w) \/
  (exists h, run_adopt r o w = set_microtasks (microtasks w ++ [MThen r h]) w).
Proof.
  destruct o as [v|e]; simpl; [apply resolve_promise_cases|].
  left. eexists. reflexivity.
Qed.

Lemma finish_cases t w :
  (exists o, finish t w = settle (HRun (task_run t)) o w) \/
  (exists h, finish t w = set_microtasks (microtasks w ++ [MThen (task_run t) h]) w).
Proof.
  destruct t as [r v|r e]; simpl; [apply resolve_promise_cases|].
  left. eexists. reflexivity.
Qed.

(** The counter has given every invoker its own identifier; a run has at most
    one continuation registered or queued; a run that has one is a run of
    the world whose promise is still pending; no action is running between
    two turns; and a promise that follows another promise belongs to a run
    of the world that has no continuation left and is still pending. *)
Record wf (w : world) : Prop := Wf {
  wf_counter : generatorId w = length (invokers w);
  wf_ids : forall i x, invokers w !! i = Some x -> inv_runId x = S i;
  wf_single : forall r, pending_of r w <= 1;
  wf_live : forall r, 0 < pending_of r w ->
            r < length (runs w) /\ run_result (run_of r w) = None;
  wf_quiet : acting w = false;
  wf_follow : forall r, adopting_of r w <= 1;
  wf_adopt : forall r, 0 < adopting_of r w ->
             pending_of r w = 0 /\ r < length (runs w) /\
             run_result (run_of r w) = None
}.

Lemma wf_init : wf init_world.
Proof.
  split; try done; intros r; unfold pending_of, adopting_of; simpl; lia.
Qed.

Lemma wf_create name generator w : wf w -> wf (step w (EvCreate name generator)).
Proof.
  intros [Hc Hi Hs Hl Hq Hf Ha]. simpl. split; simpl; try done.
  - rewrite length_app. simpl. lia.
  - intros i x Hx. apply lookup_app_Some in Hx as [Hx|[Hge Hx]]; [by apply Hi|].
    destruct (i - length (invokers w)) as [|k] eqn:Hk; simpl in Hx; [|by rewrite lookup_nil in Hx].
    inversion Hx; subst. simpl. lia.
Qed.

(** A synchronous action is reported, runs, and leaves the flag of the
    running action as it found it. *)
Lemma sync_eq name ctx args w :
  acting w = false ->
  step w (EvSync name ctx args) = emit (Call name ModeNone 0 ctx args) w.
Proof.
  intros Hq. simpl. unfold createActionInvoker. rewrite Hq. simpl.
  unfold emit. destruct w; simpl in *. by subst.
Qed.

Lemma wf_sync name ctx args w : wf w -> wf (step w (EvSync name ctx args)).
Proof.
  intros [Hc Hi Hs Hl Hq Hf Ha]. rewrite sync_eq by done. by split.
Qed.

(** A world that has the invokers, the runs and the results of a world that
    satisfies the invariant, and no continuation and no promise to follow
    that it does not have, satisfies it. *)
Lemma wf_shrink w m :
  wf w -> generatorId m = generatorId w -> invokers m = invokers w ->
  acting m = false -> length (runs m) = length (runs w) ->
  (forall r, run_result (run_of r m) = run_result (run_of r w)) ->
  (forall r, pending_of r m <= pending_of r w) ->
  (forall r, adopting_of r m <= adopting_of r w) ->
  wf m.
Proof.
  intros [Hc Hi Hs Hl Hq Hf Ha] Hg Hinv Hact Hlen Hres Hp Had.
  split.
  - by rewrite Hg, Hinv.
  - by rewrite Hinv.
  - intros r. specialize (Hp r). specialize (Hs r). lia.
  - intros r Hpos. rewrite Hlen, Hres. apply Hl. specialize (Hp r). lia.
  - done.
  - intros r. specialize (Had r). specialize (Hf r). lia.
  - intros r Hpos. rewrite Hlen, Hres.
    destruct (Ha r) as (H0 & Hlt & Hnone); [specialize (Had r); lia|].
    specialize (Hp r). split; [lia|done].
Qed.

Lemma wf_quietly w m :
  wf w -> quiet w m ->
  (forall r, run_result (run_of r m) = run_result (run_of r w)) ->
  (forall r, adopting_of r m <= adopting_of r w) -> wf m.
Proof.
  intros Hwf Hqt Hres Had.
  apply (wf_shrink w); try done.
  - apply (qt_generatorId _ _ Hqt).
  - apply (qt_invokers _ _ Hqt).
  - rewrite (qt_acting _ _ Hqt). by apply wf_quiet.
  - apply (qt_length _ _ Hqt).
  - intros r. by rewrite (quiet_pending _ _ r Hqt).
Qed.

(** Settling the promise of a run that has neither a continuation nor a
    promise to follow. *)
Lemma wf_settled w r o :
  wf w -> pending_of r w = 0 -> adopting_of r w = 0 -> wf (settle (HRun r) o w).
Proof.
  intros Hwf Hp Ha.
  pose proof (settle_quiet (HRun r) o w) as Hqt.
  destruct (settle_runs (HRun r) o w) as (Hlen & Hrun & _).
  destruct Hwf as [Hc Hi Hs Hl Hq Hf Had].
  split.
  - by rewrite (qt_generatorId _ _ Hqt), (qt_invokers _ _ Hqt).
  - by rewrite (qt_invokers _ _ Hqt).
  - intros r'. by rewrite settle_pending_of.
  - intros r'. rewrite settle_pending_of, Hlen. intros Hpos.
    assert (r' ≠ r) as Hne by (intros ->; lia).
    rewrite Hrun by congruence. by apply Hl.
  - by rewrite settle_keeps_acting.
  - intros r'. by rewrite settle_adopting.
  - intros r'. rewrite settle_adopting, settle_pending_of, Hlen. intros Hpos.
    assert (r' ≠ r) as Hne by (intros ->; lia).
    rewrite Hrun by congruence. by apply Had.
Qed.

(** The promise of a pending run that has no continuation starts to follow
    a promise, or goes on following one. *)
Lemma wf_follows w w' r :
  wf w -> pending_of r w = 0 -> adopting_of r w = 0 ->
  r < length (runs w) -> run_result (run_of r w) = None ->
  quiet w w' -> (forall r', run_result (run_of r' w') = run_result (run_of r' w)) ->
  (forall r', adopting_of r' w' = adopting_of r' w + (if decide (r' = r) then 1 else 0)) ->
  wf w'.
Proof.
  intros [Hc Hi Hs Hl Hq Hf Had] Hp Ha Hlt Hnone Hqt Hres Hadd.
  split.
  - by rewrite (qt_generatorId _ _ Hqt), (qt_invokers _ _ Hqt).
  - by rewrite (qt_invokers _ _ Hqt).
  - intros r'. by rewrite (quiet_pending _ _ r' Hqt).
  - intros r'. rewrite (quiet_pending _ _ r' Hqt), (qt_length _ _ Hqt), Hres. apply Hl.
  - by rewrite (qt_acting _ _ Hqt).
  - intros r'. rewrite Hadd. case_decide; [subst; lia|]. specialize (Hf r'). lia.
  - intros r'. rewrite Hadd, (quiet_pending _ _ r' Hqt), (qt_length _ _ Hqt), Hres.
    case_decide as Hd; [subst; done|]. rewrite Nat.add_0_r. apply Had.
Qed.

Lemma wf_settle n o w : wf w -> wf (step w (EvSettle n o)).
Proof.
  intros Hwf. simpl.
  destruct (settle_runs (HOp n) o w) as (Hlen & Hrun & _).
  apply (wf_quietly w); [done|apply settle_quiet|..].
  - intros r. by rewrite Hrun.
  - intros r. by rewrite settle_adopting.
Qed.

Lemma pending_pop_job (j : job) js w r :
  microtasks w = MJob j :: js ->
  pending_of r w =
  pending_of r (set_microtasks js w) + (if decide (r = job_run j) then 1 else 0).
Proof.
  intros Hm. unfold pending_of, waits_of, jobs_of, tasks_of. simpl. rewrite Hm. simpl.
  case_decide as Hd.
  - subst. rewrite Nat.eqb_refl. simpl. lia.
  - destruct (Nat.eqb_spec (job_run j) r); [congruence|lia].
Qed.

Lemma pending_pop_task t ts w r :
  immediates w = t :: ts ->
  pending_of r w =
  pending_of r (set_immediates ts w) + (if decide (r = task_run t) then 1 else 0).
Proof.
  intros Hm. unfold pending_of, waits_of, jobs_of, tasks_of. simpl. rewrite Hm. simpl.
  case_decide as Hd.
  - subst. rewrite Nat.eqb_refl. simpl. lia.
  - destruct (Nat.eqb_spec (task_run t) r); [congruence|lia].
Qed.

(** Taking a job that follows a promise from the queue. *)
Lemma pop_follow m ms w r0 :
  microtasks w = m :: ms -> (forall r, job_of r m = false) ->
  (forall r, follows r m = Nat.eqb r0 r) ->
  quiet w (set_microtasks ms w) /\
  runs (set_microtasks ms w) = runs w /\
  forall r, adopting_of r w =
            adopting_of r (set_microtasks ms w) + (if decide (r = r0) then 1 else 0).
Proof.
  intros Hm Hj Hf. split; [|split; [done|]].
  - split; try done. intros r. unfold awaiting, waits_of, jobs_of. simpl.
    rewrite Hm. simpl. by rewrite Hj.
  - intros r. unfold adopting_of. simpl. rewrite Hm. simpl. rewrite Hf.
    case_decide as Hd.
    + subst. rewrite Nat.eqb_refl. simpl. lia.
    + destruct (Nat.eqb_spec r0 r); [congruence|lia].
Qed.

(** A world with one more run than a world that satisfies the invariant. *)
Lemma wf_extend w m :
  wf w -> generatorId m = generatorId w -> invokers m = invokers w ->
  acting m = false -> length (runs m) = S (length (runs w)) ->
  (forall r, r < length (runs w) -> run_result (run_of r m) = run_result (run_of r w)) ->
  (forall r, r ≠ length (runs w) -> pending_of r m <= pending_of r w) ->
  pending_of (length (runs w)) m <= 1 ->
  (0 < pending_of (length (runs w)) m -> run_result (run_of (length (runs w)) m) = None) ->
  (forall r, adopting_of r m <= adopting_of r w) ->
  wf m.
Proof.
  intros [Hc Hi Hs Hl Hq Hf Ha] Hg Hinv Hact Hlen Hres Hp Hp0 Hl0 Had.
  split.
  - by rewrite Hg, Hinv.
  - by rewrite Hinv.
  - intros r. destruct (decide (r = length (runs w))) as [->|Hne]; [done|].
    specialize (Hp r Hne). specialize (Hs r). lia.
  - intros r Hpos. rewrite Hlen.
    destruct (decide (r = length (runs w))) as [->|Hne]; [split; [lia|by apply Hl0]|].
    destruct (Hl r) as [Hlt Hnone]; [specialize (Hp r Hne); lia|].
    split; [lia|]. by rewrite Hres.
  - done.
  - intros r. specialize (Had r). specialize (Hf r). lia.
  - intros r Hpos. rewrite Hlen.
    destruct (Ha r) as (H0 & Hlt & Hnone); [specialize (Had r); lia|].
    assert (r ≠ length (runs w)) as Hne by lia.
    specialize (Hp r Hne). rewrite Hres by done. split; [lia|]. split; [lia|done].
Qed.

Lemma wf_call i ctx args w : wf w -> wf (step w (EvCall i ctx args)).
Proof.
  intros Hwf. simpl. destruct (invokers w !! i) as [x|]; [|done].
  rewrite asyncAction_eq. rewrite (wf_quiet w Hwf).
  set (r0 := length (runs w)).
  set (m := set_acting true (started x ctx args w)).
  destruct (started_fields x ctx args w) as (Hg & Hinv & _ & _ & _ & _ & _ & Hlen & _).
  assert (forall r, pending_of r m = pending_of r w) as Hpm.
  { intros r. destruct (started_counts x ctx args w r) as (H1 & H2 & _).
    change (pending_of r (started x ctx args w) = pending_of r w).
    by rewrite !pending_awaiting, H1, H2. }
  assert (forall r, adopting_of r m = adopting_of r w) as Ham.
  { intros r. by destruct (started_counts x ctx args w r) as (_ & _ & H3). }
  assert (pending_of r0 w = 0) as Hfresh.
  { destruct (pending_of r0 w) as [|k] eqn:Hk; [done|].
    destruct (wf_live w Hwf r0) as [Hlt _]; [lia|]. unfold r0 in Hlt. lia. }
  pose proof (advance_adopting r0 ModeYield (Next VUndefined) m) as Had.
  destruct (advance r0 ModeYield (Next VUndefined) m) as [res w'] eqn:Hadv.
  destruct (advance_frame _ _ _ _ _ _ Hadv)
    as (Hp & Hlen' & Hne & Hst & Hg' & Hinv' & _).
  cbn [snd] in Had.
  assert (forall r, r < r0 -> run_result (run_of r w') = run_result (run_of r w)) as Hold.
  { intros r Hr. destruct (Hst r) as (_ & _ & _ & ->).
    change (run_result (run_of r (started x ctx args w)) = run_result (run_of r w)).
    by rewrite started_run_old. }
  assert (run_result (run_of r0 w') = None) as Hnew.
  { destruct (Hst r0) as (_ & _ & _ & ->).
    change (run_result (run_of r0 (started x ctx args w)) = None).
    unfold r0. by rewrite started_run_new. }
  set (W := set_acting false w').
  destruct res as [[]|e]; cbn [snd].
  - apply (wf_extend w); fold r0.
    + done.
    + change (generatorId w' = generatorId w). by rewrite Hg'.
    + change (invokers w' = invokers w). by rewrite Hinv'.
    + done.
    + change (length (runs w') = S r0). by rewrite Hlen'.
    + exact Hold.
    + intros r Hr. change (pending_of r w' <= pending_of r w).
      rewrite Hp, Hpm, decide_False by done. lia.
    + change (pending_of r0 w' <= 1). rewrite Hp, Hpm, decide_True by done. lia.
    + intros _. exact Hnew.
    + intros r. change (adopting_of r w' <= adopting_of r w). by rewrite Had, Ham.
  - destruct (settle_fields (HRun r0) (Rejected e) W) as (Hg2 & Hinv2 & _).
    destruct (settle_runs (HRun r0) (Rejected e) W) as (Hlen2 & Hrun2 & _).
    apply (wf_extend w); fold r0.
    + done.
    + rewrite Hg2. change (generatorId w' = generatorId w). by rewrite Hg'.
    + rewrite Hinv2. change (invokers w' = invokers w). by rewrite Hinv'.
    + by rewrite settle_keeps_acting.
    + rewrite Hlen2. change (length (runs w') = S r0). by rewrite Hlen'.
    + intros r Hr. rewrite Hrun2 by (intros [=]; lia). by apply Hold.
    + intros r Hr. rewrite settle_pending_of. change (pending_of r w' <= pending_of r w).
      rewrite Hp, Hpm, decide_False by done. lia.
    + rewrite settle_pending_of. change (pending_of r0 w' <= 1).
      rewrite Hp, Hpm, decide_True by done. lia.
    + rewrite settle_pending_of. change (0 < pending_of r0 w' -> 
        run_result (run_of r0 (settle (HRun r0) (Rejected e) W)) = None).
      rewrite Hp, Hpm, decide_True by done. lia.
    + intros r. rewrite settle_adopting. change (adopting_of r w' <= adopting_of r w).
      by rewrite Had, Ham.
Qed.

Lemma wf_tick w : wf w -> wf (step w EvTick).
Proof.
  intros Hwf. simpl.
  destruct (microtasks w) as [|[j|r o|r h] js] eqn:Hm.
  - destruct (immediates w) as [|t ts] eqn:Him; [done|].
    unfold run_immediate. rewrite run_task_eq.
    set (wp := set_immediates ts w).
    set (m := reported (task_record t wp) wp).
    pose proof (pending_pop_task t ts w (task_run t) Him) as Hpop.
    rewrite decide_True in Hpop by done. fold wp in Hpop.
    pose proof (wf_single w Hwf (task_run t)) as Hone.
    destruct (wf_live w Hwf (task_run t)) as [Hlt Hnone]; [lia|].
    assert (adopting_of (task_run t) w = 0) as Hnot.
    { destruct (adopting_of (task_run t) w) as [|k] eqn:Hk; [done|].
      destruct (wf_adopt w Hwf (task_run t)) as (H0 & _); lia. }
    destruct (reported_fields (task_record t wp) wp)
      as (Hg & Hinv & Hruns & _ & Hwt & Hmi & Himm & _ & Hact).
    fold m in Hg, Hinv, Hruns, Hwt, Hmi, Himm, Hact.
    assert (forall r, pending_of r m = pending_of r wp) as Hpm.
    { intros r. unfold pending_of, waits_of, jobs_of, tasks_of. by rewrite Hwt, Hmi, Himm. }
    assert (forall r, adopting_of r m = adopting_of r w) as Ham.
    { intros r. unfold adopting_of. by rewrite Hwt, Hmi. }
    assert (forall r, run_of r m = run_of r w) as Hrm.
    { intros r. unfold run_of. by rewrite Hruns. }
    assert (wf m) as Hwfm.
    { apply (wf_shrink w).
      - done.
      - exact Hg.
      - exact Hinv.
      - rewrite Hact. exact (wf_quiet w Hwf).
      - by rewrite Hruns.
      - intros r. by rewrite Hrm.
      - intros r. rewrite Hpm, (pending_pop_task t ts w r Him). fold wp. lia.
      - intros r. by rewrite Ham. }
    assert (pending_of (task_run t) m = 0) as Hp0 by (rewrite Hpm; lia).
    assert (adopting_of (task_run t) m = 0) as Ha0 by by rewrite Ham.
    cbn [snd].
    destruct (finish_cases t m) as [[o ->]|[h ->]].
    + by apply wf_settled.
    + apply (wf_follows m _ (task_run t)); try done.
      * by rewrite Hruns.
      * by rewrite Hrm.
      * by apply push_quiet.
      * intros r'. rewrite push_adopting. simpl.
        case_decide; destruct (Nat.eqb_spec (task_run t) r'); congruence || lia.
  - rewrite run_job_eq.
    set (wp := set_microtasks js w).
    pose proof (advance_adopting (job_run j) (job_mode j) (job_signal j) wp) as Had.
    pose proof (advance_acting (job_run j) (job_mode j) (job_signal j) wp) as Hact.
    destruct (advance (job_run j) (job_mode j) (job_signal j) wp) as [res w'] eqn:Hadv.
    destruct (advance_frame _ _ _ _ _ _ Hadv)
      as (Hp & Hlen' & Hne & Hst & Hg' & Hinv' & _).
    cbn [snd] in Had, Hact.
    assert (wf w') as Hwf'.
    { apply (wf_shrink w).
      - done.
      - exact Hg'.
      - exact Hinv'.
      - rewrite Hact. exact (wf_quiet w Hwf).
      - exact Hlen'.
      - intros r. by destruct (Hst r) as (_ & _ & _ & ->).
      - intros r. rewrite Hp, (pending_pop_job j js w r Hm). fold wp.
        case_decide; [destruct res|]; lia.
      - intros r. rewrite Had. unfold adopting_of. simpl. rewrite Hm. simpl. lia. }
    destruct res as [[]|e]; [done|]. by destruct Hwf'.
  - destruct (pop_follow (MAdopt r o) js w r Hm) as (Hqt & Hruns & Hpop); [done..|].
    set (wp := set_microtasks js w) in *.
    pose proof (Hpop r) as Hr. rewrite decide_True in Hr by done.
    pose proof (wf_follow w Hwf r) as Hone.
    destruct (wf_adopt w Hwf r) as (Hp0 & Hlt & Hnone); [lia|].
    assert (wf wp) as Hwfp.
    { apply (wf_quietly w); try done. intros r'. rewrite (Hpop r'). lia. }
    assert (pending_of r wp = 0) as Hp0' by by rewrite (quiet_pending _ _ r Hqt).
    destruct (run_adopt_cases r o wp) as [[o' ->]|[h ->]].
    + apply wf_settled; [done..|lia].
    + apply (wf_follows wp _ r); try done.
      * lia.
      * by apply push_quiet.
      * intros r'. rewrite push_adopting. simpl.
        case_decide; destruct (Nat.eqb_spec r r'); congruence || lia.
  - destruct (pop_follow (MThen r h) js w r Hm) as (Hqt & Hruns & Hpop); [done..|].
    set (wp := set_microtasks js w) in *.
    pose proof (Hpop r) as Hr. rewrite decide_True in Hr by done.
    pose proof (wf_follow w Hwf r) as Hone.
    destruct (wf_adopt w Hwf r) as (Hp0 & Hlt & Hnone); [lia|].
    assert (wf wp) as Hwfp.
    { apply (wf_quietly w); try done. intros r'. rewrite (Hpop r'). lia. }
    assert (pending_of r wp = 0) as Hp0' by by rewrite (quiet_pending _ _ r Hqt).
    apply (wf_follows wp _ r); try done.
    + lia.
    + apply run_then_quiet.
    + intros r'. unfold run_of. by rewrite run_then_runs.
    + intros r'. apply run_then_adopting.
Qed.

Lemma wf_step w ev : wf w -> wf (step w ev).
Proof.
  destruct ev.
  - apply wf_create.
  - apply wf_call.
  - apply wf_sync.
  - apply wf_settle.
  - apply wf_tick.
Qed.

Lemma reachable_wf w : reachable w -> wf w.
Proof. induction 1; [apply wf_init | by apply wf_step]. Qed.

Lemma reachable_exec w evs : reachable w -> reachable (exec w evs).
Proof.
  revert w. induction evs as [|ev evs IH]; intros w Hw; [done|].
  simpl. apply IH. by constructor.
Qed.

(** *** The records of one step of the event loop *)

Definition step_emits (w : world) (ev : event) : list call :=
  match ev with
  | EvCreate _ _ | EvSettle _ _ => []
  | EvCall i ctx args =>
      match invokers w !! i with
      | Some x => [Call (inv_name x) ModeInvoke (inv_runId x) ctx args]
      | None => []
      end
  | EvSync name ctx args => [Call name ModeNone 0 ctx args]
  | EvTick =>
      match microtasks w with
      | MJob j :: _ => [step_record (job_run j) (job_mode j) (signal_arg (job_signal j)) w]
      | MAdopt _ _ :: _ | MThen _ _ :: _ => []
      | [] =>
          match immediates w with
          | t :: _ => [task_record t w]
          | [] => []
          end
      end
  end.

(** The log of a call: the record of the call when no action is running,
    and nothing for the kick-off, which runs within the call. *)
Lemma call_log x ctx args w :
  log (asyncAction x ctx args w).2 =
  log w ++ reports w (Call (inv_name x) ModeInvoke (inv_runId x) ctx args).
Proof. by destruct (call_view w x ctx args) as (_ & _ & _ & _ & _ & _ & Hlog & _). Qed.

Lemma log_step_any w ev :
  log (step w ev) = log w ++ (if acting w then [] else step_emits w ev).
Proof.
  destruct ev as [name gen|i ctx args|name ctx args|n o|].
  - simpl. destruct (acting w); by rewrite app_nil_r.
  - simpl. destruct (invokers w !! i) as [x|]; [|destruct (acting w); by rewrite app_nil_r].
    rewrite call_log. unfold reports. by destruct (acting w).
  - simpl. unfold createActionInvoker.
    destruct (acting w) eqn:Hq; simpl; [by rewrite app_nil_r|done].
  - simpl. destruct (settle_fields (HOp n) o w) as (_ & _ & -> & _).
    destruct (acting w); by rewrite app_nil_r.
  - simpl. destruct (microtasks w) as [|[j|r o|r h] js] eqn:Hm.
    + destruct (immediates w) as [|t ts] eqn:Him; [destruct (acting w); by rewrite app_nil_r|].
      unfold run_immediate. rewrite run_task_eq. cbn [snd].
      rewrite (qt_log _ _ (finish_quiet _ _)), reported_log. unfold reports.
      cbn [acting set_immediates]. destruct (acting w); [done|]. by destruct t.
    + rewrite run_job_eq.
      destruct (advance _ _ _ _) as [res w'] eqn:Hadv.
      destruct (advance_frame _ _ _ _ _ _ Hadv) as (_ & _ & _ & _ & _ & _ & _ & _ & Hlog).
      unfold reports in Hlog. cbn [acting set_microtasks] in Hlog.
      unfold signal_arg. destruct res as [[]|e]; simpl; rewrite Hlog;
        by destruct (acting w).
    + rewrite (qt_log _ _ (run_adopt_quiet _ _ _)). simpl.
      destruct (acting w); by rewrite app_nil_r.
    + rewrite (qt_log _ _ (run_then_quiet _ _ _)). simpl.
      destruct (acting w); by rewrite app_nil_r.
Qed.

Lemma log_step w ev :
  acting w = false -> log (step w ev) = log w ++ step_emits w ev.
Proof. intros Hq. by rewrite log_step_any, Hq. Qed.

Lemma emitted_step w ev :
  acting w = false -> emitted_since (length (log w)) (step w ev) = step_emits w ev.
Proof. intros Hq. unfold emitted_since. by rewrite log_step, drop_app_length. Qed.

(** A settled promise of a run is never settled again. *)
Lemma step_result_stable w ev r o :
  run_result (run_of r w) = Some o -> run_result (run_of r (step w ev)) = Some o.
Proof.
  intros Hr.
  assert (r < length (runs w)) as Hlt.
  { destruct (decide (r < length (runs w))); [done|].
    rewrite run_of_out in Hr by lia. done. }
  destruct ev as [name gen|i ctx args|name ctx args|n o'|]; simpl.
  - done.
  - destruct (invokers w !! i) as [x|]; [|done].
    destruct (call_view w x ctx args) as (_ & _ & Hold & _). by rewrite Hold.
  - unfold createActionInvoker. by destruct (acting w).
  - by apply settle_stable.
  - destruct (microtasks w) as [|[j|r' o'|r' h] js] eqn:Hm.
    + destruct (immediates w) as [|t ts] eqn:Him; [done|].
      unfold run_immediate. rewrite run_task_eq. cbn [snd].
      apply (qt_stable _ _ (finish_quiet _ _)). by rewrite run_of_reported.
    + rewrite run_job_eq.
      destruct (advance _ _ _ _) as [res w'] eqn:Hadv.
      destruct (advance_frame _ _ _ _ _ _ Hadv) as (_ & _ & _ & Hst & _).
      destruct (Hst r) as (_ & _ & _ & Hres).
      destruct res as [[]|e];
        [|change (run_result (run_of r w') = Some o)]; by rewrite Hres.
    + by apply (qt_stable _ _ (run_adopt_quiet _ _ _)).
    + by apply (qt_stable _ _ (run_then_quiet _ _ _)).
Qed.

(** *** Settlement is deferred *)

(** When the generator returns or raises, the sub-step reports itself, hands
    a callback to [setImmediate] and leaves the promise of the run alone. *)
Lemma advance_detects r mode s w g t :
  run_gen (run_of r w) = GSuspended g ->
  (exists v, resume g s = Returned v /\ t = TReturn r v) \/
  (exists e, resume g s = Raised e /\ t = TThrow r e) ->
  let w' := (advance r mode s w).2 in
  (advance r mode s w).1 = Ok tt /\
  emitted_since (length (log w)) w' = reports w (step_record r mode (signal_arg s) w) /\
  immediates w' = immediates w ++ [t] /\
  waiting w' = waiting w /\ microtasks w' = microtasks w /\
  run_result (run_of r w') = run_result (run_of r w).
Proof.
  intros Hg Hcase.
  assert (advance r mode s w =
          (Ok tt, set_immediates (immediates w ++ [t])
                    (resumed r mode s (Some GClosed) w))) as ->.
  { destruct Hcase as [(v & Hres & ->)|(e & Hres & ->)].
    - by apply advance_returned with g.
    - by apply advance_raised with g. }
  cbn [fst snd].
  destruct (resumed_fields r mode s (Some GClosed) w)
    as (_ & _ & _ & Hwt & Hmi & _ & _ & _ & Hlog).
  destruct (resumed_static r r mode s (Some GClosed) w) as (_ & _ & _ & Hres).
  split; [done|]. split.
  { unfold emitted_since.
    change (drop (length (log w)) (log (resumed r mode s (Some GClosed) w)) =
            reports w (step_record r mode (signal_arg s) w)).
    rewrite Hlog, drop_app_length. by destruct s. }
  split; [done|]. split; [exact Hwt|]. split; [exact Hmi|]. exact Hres.
Qed.

(** C5. The record of mode [return] or [throw] that ends a run is never
    reported in the turn that detects the completion or the failure: that
    turn reports at most its own step (nothing when it is the kick-off,
    which runs within the call), hands a callback to [setImmediate] and
    leaves the promise pending. The record is reported by the scheduler when
    it runs that callback, and that same step calls [reject] with the error
    or [resolve] with the final value on the promise of the run, pending
    until then: the promise is rejected with the error; it is fulfilled with
    the final value when that is no thenable; and when the final value is
    another promise, the promise of the run starts to follow it (a promise
    resolved with itself is rejected). Once settled, the promise never
    changes. *)
Theorem terminal_record_is_deferred w :
  (forall r res g t,
     run_gen (run_of r w) = GSuspended g ->
     (exists v, resume g (Next res) = Returned v /\ t = TReturn r v) \/
     (exists e, resume g (Next res) = Raised e /\ t = TThrow r e) ->
     let w' := (onFulfilled r res w).2 in
     emitted_since (length (log w)) w' =
       (if acting w then [] else [step_record r ModeYield res w]) /\
     immediates w' = immediates w ++ [t] /\
     run_result (run_of r w') = run_result (run_of r w)) /\
  (forall r err g t,
     run_gen (run_of r w) = GSuspended g ->
     (exists v, resume g (Throw err) = Returned v /\ t = TReturn r v) \/
     (exists e, resume g (Throw err) = Raised e /\ t = TThrow r e) ->
     let w' := (onRejected r err w).2 in
     emitted_since (length (log w)) w' =
       (if acting w then [] else [step_record r ModeYieldError err w]) /\
     immediates w' = immediates w ++ [t] /\
     run_result (run_of r w') = run_result (run_of r w)) /\
  (reachable w ->
   forall ev c,
     c ∈ emitted_since (length (log w)) (step w ev) -> is_terminal c = true ->
     exists t ts,
       ev = EvTick /\ microtasks w = [] /\ immediates w = t :: ts /\
       emitted_since (length (log w)) (step w ev) = [c] /\
       c = task_record t w /\
       run_result (run_of (task_run t) w) = None /\
       match t with
       | TThrow r e => run_result (run_of r (step w ev)) = Some (Rejected e)
       | TReturn r (VPromise h) =>
           if decide (h = HRun r)
           then run_result (run_of r (step w ev)) = Some (Rejected chaining_cycle)
           else run_result (run_of r (step w ev)) = None /\
                microtasks (step w ev) = [MThen r h] /\
                adopting_of r (step w ev) = 1
       | TReturn r v => run_result (run_of r (step w ev)) = Some (Fulfilled v)
       end) /\
  (forall ev r o,
     run_result (run_of r w) = Some o ->
     run_result (run_of r (step w ev)) = Some o).
Proof.
  split; [|split; [|split]].
  - intros r res g t Hg Hcase. rewrite onFulfilled_advance.
    destruct (advance_detects r ModeYield (Next res) w g t Hg Hcase)
      as (_ & He & Hi & _ & _ & Hr). done.
  - intros r err g t Hg Hcase. rewrite onRejected_advance.
    destruct (advance_detects r ModeYieldError (Throw err) w g t Hg Hcase)
      as (_ & He & Hi & _ & _ & Hr). done.
  - intros Hreach ev c Hin Hterm. pose proof (reachable_wf w Hreach) as Hwf.
    pose proof (wf_quiet w Hwf) as Hq.
    rewrite emitted_step in * by done.
    destruct ev as [name gen|i ctx args|name ctx args|n o|]; simpl in Hin.
    + by apply elem_of_nil in Hin.
    + destruct (invokers w !! i); [|by apply elem_of_nil in Hin].
      apply elem_of_cons in Hin as [->|Hin]; [done|]. by apply elem_of_nil in Hin.
    + apply elem_of_cons in Hin as [->|Hin]; [done|]. by apply elem_of_nil in Hin.
    + by apply elem_of_nil in Hin.
    + destruct (microtasks w) as [|[j|r o|r h] js] eqn:Hm;
        [| |by apply elem_of_nil in Hin..].
      * destruct (immediates w) as [|t ts] eqn:Him; [by apply elem_of_nil in Hin|].
        apply elem_of_cons in Hin as [->|Hin]; [|by apply elem_of_nil in Hin].
        exists t, ts. simpl. rewrite Hm, Him.
        assert (0 < pending_of (task_run t) w) as Hpos.
        { rewrite (pending_pop_task t ts w _ Him). case_decide; [lia|done]. }
        destruct (wf_live w Hwf _ Hpos) as [Hlt Hnone].
        assert (adopting_of (task_run t) w = 0) as Hnot.
        { destruct (adopting_of (task_run t) w) as [|k] eqn:Hk; [done|].
          destruct (wf_adopt w Hwf (task_run t)) as (H0 & _); lia. }
        repeat (split; [done|]).
        unfold run_immediate. rewrite run_task_eq. cbn [snd].
        set (m := reported (task_record t (set_immediates ts w)) (set_immediates ts w)).
        destruct (reported_fields (task_record t (set_immediates ts w)) (set_immediates ts w))
          as (_ & _ & Hruns & _ & Hwt & Hmi & _).
        fold m in Hruns, Hwt, Hmi.
        assert (task_run t < length (runs m)) as Hlt' by by rewrite Hruns.
        assert (run_result (run_of (task_run t) m) = None) as Hnone'.
        { unfold m. by rewrite run_of_reported. }
        pose proof (finish_result t m Hlt' Hnone') as Hfin.
        destruct t as [r v|r e]; [|exact Hfin].
        destruct v; try exact Hfin.
        case_decide; [exact Hfin|].
        destruct Hfin as (H1 & H2 & H3). split; [done|].
        rewrite Hmi in H2. cbn [microtasks set_immediates] in H2. rewrite Hm in H2.
        split; [exact H2|].
        unfold adopting_of. rewrite H2, H3, Hwt. cbn [waiting set_immediates].
        simpl in Hnot. unfold adopting_of in Hnot. rewrite Hm in Hnot.
        simpl in *. rewrite Nat.eqb_refl. simpl. lia.
      * apply elem_of_cons in Hin as [->|Hin]; [|by apply elem_of_nil in Hin].
        unfold is_terminal, job_mode in Hterm. simpl in Hterm. by destruct (job_outcome j).
  - intros ev r o. apply step_result_stable.
Qed.

(** *** Failures of awaited operations *)


(** *** Yielding something that is not a promise *)

Lemma advance_invalid_fatal r mode s w g v g' :
  run_gen (run_of r w) = GSuspended g -> resume g s = Yielded v g' ->
  has_then v = false ->
  (advance r mode s w).1 = Thrown invalid_yield /\
  pending_of r (advance r mode s w).2 = pending_of r w /\
  run_result (run_of r (advance r mode s w).2) = run_result (run_of r w).
Proof.
  intros Hg Hres Hv. rewrite (advance_invalid _ _ _ _ _ _ _ Hg Hres Hv).
  cbn [fst snd]. split; [done|]. split.
  - unfold pending_of.
    by destruct (resumed_pending r r mode s (Some (GSuspended g')) w) as (-> & -> & ->).
  - by destruct (resumed_static r r mode s (Some (GSuspended g')) w) as (_ & _ & _ & ->).
Qed.

(** C7 (as amended). When a step yields a value that is not a thenable,
    [next] raises the error of [fail] whose message is "Only promises can be
    yielded to `async`, got: [object Object]" behind the prefix of the
    library; the step registers no continuation, so the generator is never
    resumed again; and when this happens in the turn of the call itself, the
    promise of the run is rejected with that error. *)
Theorem invalid_yield_is_fatal w :
  (forall r res g v g',
     run_gen (run_of r w) = GSuspended g ->
     resume g (Next res) = Yielded v g' -> has_then v = false ->
     (onFulfilled r res w).1 = Thrown invalid_yield /\
     pending_of r (onFulfilled r res w).2 = pending_of r w) /\
  (forall r err g v g',
     run_gen (run_of r w) = GSuspended g ->
     resume g (Throw err) = Yielded v g' -> has_then v = false ->
     (onRejected r err w).1 = Thrown invalid_yield /\
     pending_of r (onRejected r err w).2 = pending_of r w) /\
  (forall i x ctx args v g',
     invokers w !! i = Some x ->
     resume (inv_generator x ctx args) (Next VUndefined) = Yielded v g' ->
     has_then v = false ->
     let w' := step w (EvCall i ctx args) in
     run_result (run_of (length (runs w)) w') = Some (Rejected invalid_yield) /\
     pending_of (length (runs w)) w' = pending_of (length (runs w)) w) /\
  invalid_yield =
    VError "[mobx-state-tree] Only promises can be yielded to `async`, got: [object Object]".
Proof.
  split; [|split; [|split]].
  - intros r res g v g' Hg Hres Hv. rewrite onFulfilled_advance.
    destruct (advance_invalid_fatal r ModeYield (Next res) w g v g' Hg Hres Hv)
      as (H1 & H2 & _). done.
  - intros r err g v g' Hg Hres Hv. rewrite onRejected_advance.
    destruct (advance_invalid_fatal r ModeYieldError (Throw err) w g v g' Hg Hres Hv)
      as (H1 & H2 & _). done.
  - intros i x ctx args v g' Hx Hres Hv. simpl. rewrite Hx.
    pose proof (call_view w x ctx args) as Hview. simpl in Hview.
    destruct Hview as (_ & _ & _ & _ & _ & _ & _ & Hcase).
    rewrite Hres in Hcase. rewrite !pending_awaiting.
    destruct v; try discriminate; destruct Hcase as (-> & -> & ->); done.
  - reflexivity.
Qed.

(** *** What a call leaves of the rest *)

Lemma call_fields x ctx args w :
  let w' := (asyncAction x ctx args w).2 in
  generatorId w' = generatorId w /\ invokers w' = invokers w /\
  unhandled w' = unhandled w /\ acting w' = acting w.
Proof.
  simpl. rewrite asyncAction_eq.
  set (m := set_acting true (started x ctx args w)).
  destruct (started_fields x ctx args w) as (Hg & Hinv & _ & _ & _ & _ & Hun & _).
  destruct (advance _ _ _ m) as [res w'] eqn:Hadv.
  destruct (advance_frame _ _ _ _ _ _ Hadv) as (_ & _ & _ & _ & Hg' & Hinv' & _ & Hun' & _).
  assert (generatorId w' = generatorId w) as H1 by (rewrite Hg'; exact Hg).
  assert (invokers w' = invokers w) as H2 by (rewrite Hinv'; exact Hinv).
  assert (unhandled w' = unhandled w) as H3 by (rewrite Hun'; exact Hun).
  destruct res as [[]|e]; cbn [snd]; [done|].
  match goal with |- context [settle ?h ?o ?m] =>
    destruct (settle_fields h o m) as (-> & -> & _ & _ & ->) end.
  by rewrite settle_keeps_acting.
Qed.

Lemma call_others x ctx args w r :
  r ≠ length (runs w) ->
  awaiting r (asyncAction x ctx args w).2 = awaiting r w /\
  tasks_of r (asyncAction x ctx args w).2 = tasks_of r w.
Proof.
  intros Hne. rewrite asyncAction_eq.
  set (m := set_acting true (started x ctx args w)).
  destruct (started_counts x ctx args w r) as (Ha & Ht & _).
  destruct (advance _ _ _ m) as [res w'] eqn:Hadv.
  destruct (advance_others _ r _ _ _ _ _ Hne Hadv) as (_ & Haw & Htk).
  assert (awaiting r w' = awaiting r w) as H1 by (rewrite Haw; exact Ha).
  assert (tasks_of r w' = tasks_of r w) as H2 by (rewrite Htk; exact Ht).
  destruct res as [[]|e]; cbn [snd]; [done|].
  match goal with |- context [settle ?h ?o ?m] =>
    destruct (settle_view h o r m) as (-> & ->) end.
  done.
Qed.

Lemma call_adopting x ctx args w r :
  adopting_of r (asyncAction x ctx args w).2 = adopting_of r w.
Proof.
  rewrite asyncAction_eq.
  set (m := set_acting true (started x ctx args w)).
  destruct (started_counts x ctx args w r) as (_ & _ & Ha).
  pose proof (advance_adopting (length (runs w)) ModeYield (Next VUndefined) m r) as Had.
  destruct (advance _ _ _ m) as [res w'] eqn:Hadv. cbn [snd] in Had.
  assert (adopting_of r w' = adopting_of r w) as H1 by (rewrite Had; exact Ha).
  destruct res as [[]|e]; cbn [snd]; [done|]. by rewrite settle_adopting.
Qed.

(** *** Run identifiers *)

(** The identifier of a run is that of the invoker that was called. *)
Lemma asyncAction_runId x ctx args w :
  run_runId (run_of (length (runs w)) (asyncAction x ctx args w).2) = inv_runId x.
Proof. by destruct (call_view w x ctx args) as (_ & _ & _ & _ & H & _). Qed.

(** A call adds one run and keeps the identifiers of the others. *)
Lemma asyncAction_runs x ctx args w :
  length (runs (asyncAction x ctx args w).2) = S (length (runs w)) /\
  forall r, r < length (runs w) ->
    run_runId (run_of r (asyncAction x ctx args w).2) = run_runId (run_of r w).
Proof.
  destruct (call_view w x ctx args) as (_ & Hlen & Hold & _).
  split; [done|]. intros r Hr. by rewrite Hold.
Qed.

(** *** One step of the event loop, seen from one run *)

(** The run whose callback the scheduler runs at this step, if any: the run
    that a reaction job resumes, the run whose promise a job settles, or the
    run of a [setImmediate] callback. *)
Definition turn_of (w : world) (ev : event) : option nat :=
  match ev with
  | EvTick =>
      match microtasks w with
      | MJob j :: _ => Some (job_run j)
      | MAdopt r _ :: _ => Some r
      | MThen _ _ :: _ => None
      | [] =>
          match immediates w with
          | t :: _ => Some (task_run t)
          | [] => None
          end
      end
  | _ => None
  end.


(** A step keeps the names, the identifiers and the receivers of the runs. *)
Lemma step_static w ev r :
  r < length (runs w) ->
  run_name (run_of r (step w ev)) = run_name (run_of r w) /\
  run_runId (run_of r (step w ev)) = run_runId (run_of r w) /\
  run_ctx (run_of r (step w ev)) = run_ctx (run_of r w).
Proof.
  intros Hr.
  assert (forall m m', quiet m m' ->
            run_name (run_of r m') = run_name (run_of r m) /\
            run_runId (run_of r m') = run_runId (run_of r m) /\
            run_ctx (run_of r m') = run_ctx (run_of r m)) as Hquiet.
  { intros m m' Hq. destruct (qt_static _ _ Hq r) as (H1 & H2 & H3 & _). done. }
  destruct ev as [name gen|j ctx args|name ctx args|n o|]; simpl.
  - done.
  - destruct (invokers w !! j) as [x|]; [|done].
    destruct (call_view w x ctx args) as (_ & _ & Hold & _). by rewrite Hold.
  - unfold createActionInvoker. by destruct (acting w).
  - apply Hquiet, settle_quiet.
  - destruct (microtasks w) as [|[j|r' o|r' h] js] eqn:Hm.
    + destruct (immediates w) as [|t ts] eqn:Him; [done|].
      unfold run_immediate. rewrite run_task_eq. cbn [snd].
      destruct (Hquiet _ _ (finish_quiet t
                  (reported (task_record t (set_immediates ts w)) (set_immediates ts w))))
        as (-> & -> & ->).
      by rewrite run_of_reported.
    + rewrite run_job_eq.
      destruct (advance _ _ _ _) as [res w'] eqn:Hadv.
      destruct (advance_frame _ _ _ _ _ _ Hadv) as (_ & _ & _ & Hst & _).
      destruct (Hst r) as (H1 & H2 & H3 & _).
      destruct res as [[]|e]; done.
    + apply (Hquiet (set_microtasks js w)), run_adopt_quiet.
    + apply (Hquiet (set_microtasks js w)), run_then_quiet.
Qed.

(** A step keeps the runs and their identifiers, and only a call adds one,
    under the identifier of the invoker that was called. *)
Lemma step_runs w ev :
  (forall r, r < length (runs w) ->
     run_runId (run_of r (step w ev)) = run_runId (run_of r w)) /\
  (length (runs (step w ev)) = length (runs w) \/
   exists j ctx args x,
     ev = EvCall j ctx args /\ invokers w !! j = Some x /\
     length (runs (step w ev)) = S (length (runs w)) /\
     run_runId (run_of (length (runs w)) (step w ev)) = inv_runId x).
Proof.
  split.
  { intros r Hr. by destruct (step_static w ev r Hr) as (_ & -> & _). }
  destruct ev as [name gen|j ctx args|name ctx args|n o|]; simpl.
  - by left.
  - destruct (invokers w !! j) as [x|] eqn:Hx; [|by left].
    right. exists j, ctx, args, x. split; [done|]. split; [done|].
    split; [apply asyncAction_runs|apply asyncAction_runId].
  - left. unfold createActionInvoker. by destruct (acting w).
  - left. apply (qt_length _ _ (settle_quiet _ _ _)).
  - left. destruct (microtasks w) as [|[j|r' o|r' h] js] eqn:Hm.
    + destruct (immediates w) as [|t ts] eqn:Him; [done|].
      unfold run_immediate. rewrite run_task_eq. cbn [snd].
      rewrite (qt_length _ _ (finish_quiet _ _)).
      by destruct (reported_fields (task_record t (set_immediates ts w)) (set_immediates ts w))
        as (_ & _ & -> & _).
    + rewrite run_job_eq.
      destruct (advance _ _ _ _) as [res w'] eqn:Hadv.
      destruct (advance_frame _ _ _ _ _ _ Hadv) as (_ & Hlen & _).
      destruct res as [[]|e]; exact Hlen.
    + by rewrite (qt_length _ _ (run_adopt_quiet _ _ _)).
    + by rewrite (qt_length _ _ (run_then_quiet _ _ _)).
Qed.

Lemma awaiting_pop_job (j : job) js w r :
  microtasks w = MJob j :: js ->
  awaiting r w =
  awaiting r (set_microtasks js w) + (if decide (r = job_run j) then 1 else 0).
Proof.
  intros Hm. unfold awaiting, waits_of, jobs_of. simpl. rewrite Hm. simpl.
  case_decide as Hd.
  - subst. rewrite Nat.eqb_refl. simpl. lia.
  - destruct (Nat.eqb_spec (job_run j) r); [congruence|lia].
Qed.

Lemma tasks_pop_task t ts w r :
  immediates w = t :: ts ->
  tasks_of r w =
  (if decide (r = task_run t) then [t] else []) ++ tasks_of r (set_immediates ts w).
Proof.
  intros Hm. unfold tasks_of. simpl. rewrite Hm. simpl.
  case_decide as Hd.
  - subst. by rewrite Nat.eqb_refl.
  - by destruct (Nat.eqb_spec (task_run t) r); [congruence|].
Qed.

(** What [resolve] or [reject] makes at once of the pending promise of run
    [r]: the promise is settled, unless it is resolved with another promise,
    which it then follows. *)
Definition settles (r : nat) (o : outcome) : option outcome :=
  match o with
  | Rejected e => Some (Rejected e)
  | Fulfilled (VPromise h) =>
      if decide (h = HRun r) then Some (Rejected chaining_cycle) else None
  | Fulfilled v => Some (Fulfilled v)
  end.


Lemma run_adopt_result r o w :
  r < length (runs w) -> run_result (run_of r w) = None ->
  run_result (run_of r (run_adopt r o w)) = settles r o /\
  adopting_of r (run_adopt r o w) =
    adopting_of r w + match settles r o with Some _ => 0 | None => 1 end.
Proof.
  intros Hlt Hnone.
  assert (forall o', run_result (run_of r (settle (HRun r) o' w)) = Some o') as Hset.
  { intros o'. destruct (settle_status (HRun r) o' w) as [Hs|(r' & Heq & Hge)].
    - simpl in Hs. rewrite Hs. f_equal.
      change (default o' (run_result (run_of r w)) = o'). by rewrite Hnone.
    - inversion Heq; subst r'. lia. }
  assert (forall h, h ≠ HRun r ->
            run_result (run_of r (set_microtasks (microtasks w ++ [MThen r h]) w)) = None /\
            adopting_of r (set_microtasks (microtasks w ++ [MThen r h]) w)
              = adopting_of r w + 1) as Hpush.
  { intros h _. split; [exact Hnone|]. rewrite push_adopting. simpl.
    by rewrite Nat.eqb_refl. }
  destruct o as [v|e]; simpl.
  - unfold resolve_promise.
    destruct v; try (rewrite Hset, settle_adopting; split; [done|lia]).
    case_decide.
    + rewrite Hset, settle_adopting; split; [done|lia].
    + by apply Hpush.
  - rewrite Hset, settle_adopting; split; [done|lia].
Qed.

(** A step that is not a turn of run [r] leaves [r] as it was. *)
Lemma step_other_view w ev r :
  r < length (runs w) -> turn_of w ev ≠ Some r ->
  run_of r (step w ev) = run_of r w /\
  awaiting r (step w ev) = awaiting r w /\
  tasks_of r (step w ev) = tasks_of r w /\
  adopting_of r (step w ev) = adopting_of r w.
Proof.
  intros Hlt Hturn. destruct ev as [name gen|j ctx args|name ctx args|n o|]; simpl.
  - done.
  - destruct (invokers w !! j) as [x|]; [|done].
    destruct (call_view w x ctx args) as (_ & _ & Hold & _).
    destruct (call_others x ctx args w r ltac:(lia)) as (Ha & Ht).
    by rewrite Hold, Ha, Ht, call_adopting.
  - unfold createActionInvoker. by destruct (acting w).
  - destruct (settle_runs (HOp n) o w) as (_ & Hr2 & _).
    destruct (settle_view (HOp n) o r w) as (Ha2 & Ht2).
    by rewrite Hr2, Ha2, Ht2, settle_adopting.
  - simpl in Hturn. destruct (microtasks w) as [|[j|r' o|r' h] js] eqn:Hm.
    + destruct (immediates w) as [|t ts] eqn:Him; [done|].
      assert (r ≠ task_run t) as Hne by congruence.
      unfold run_immediate. rewrite run_task_eq. cbn [snd].
      set (wp := set_immediates ts w). set (m := reported (task_record t wp) wp).
      pose proof (finish_quiet t m) as Hq.
      destruct (finish_adopting t r m) as (Hup & Hdown).
      rewrite decide_False in Hup by done.
      destruct (reported_fields (task_record t wp) wp)
        as (_ & _ & _ & _ & Hwt & Hmi & Himm & _). fold m in Hwt, Hmi, Himm.
      rewrite (finish_other t r m) by done.
      rewrite (qt_awaiting _ _ Hq), (quiet_tasks _ _ r Hq).
      split; [by unfold m; rewrite run_of_reported|]. split; [|split].
      * unfold awaiting, waits_of, jobs_of. by rewrite Hwt, Hmi.
      * unfold tasks_of at 1. rewrite Himm. fold (tasks_of r wp).
        rewrite (tasks_pop_task t ts w r Him). by rewrite decide_False.
      * assert (adopting_of r m = adopting_of r w) as <-; [|lia].
        unfold adopting_of. by rewrite Hwt, Hmi.
    + assert (r ≠ job_run j) as Hne by congruence.
      rewrite run_job_eq.
      pose proof (advance_adopting (job_run j) (job_mode j) (job_signal j)
                    (set_microtasks js w) r) as Had.
      destruct (advance _ _ _ _) as [res w'] eqn:Hadv.
      destruct (advance_others (job_run j) r _ _ _ _ _ Hne Hadv) as (Hrun & Haw & Htk).
      cbn [snd] in Had.
      assert (run_of r w' = run_of r w /\ awaiting r w' = awaiting r w /\
              tasks_of r w' = tasks_of r w /\ adopting_of r w' = adopting_of r w) as Hall.
      { rewrite Hrun, Haw, Htk, Had. split; [done|]. split; [|split; [done|]].
        - rewrite (awaiting_pop_job j js w r Hm). rewrite decide_False by done. lia.
        - unfold adopting_of. simpl. by rewrite Hm. }
      destruct res as [[]|e]; exact Hall.
    + assert (r ≠ r') as Hne by congruence.
      destruct (pop_follow (MAdopt r' o) js w r' Hm) as (Hq0 & _ & Hpop); [done..|].
      pose proof (run_adopt_quiet r' o (set_microtasks js w)) as Hq.
      destruct (run_adopt_adopting r' o r (set_microtasks js w)) as (Hup & Hdown).
      rewrite decide_False in Hup by done.
      rewrite run_adopt_other by done.
      rewrite (qt_awaiting _ _ Hq), (quiet_tasks _ _ r Hq).
      rewrite (qt_awaiting _ _ Hq0), (quiet_tasks _ _ r Hq0).
      repeat (split; [done|]).
      rewrite (Hpop r), decide_False by done. lia.
    + destruct (pop_follow (MThen r' h) js w r' Hm) as (Hq0 & _ & Hpop); [done..|].
      pose proof (run_then_quiet r' h (set_microtasks js w)) as Hq.
      unfold run_of at 1. rewrite run_then_runs.
      rewrite (qt_awaiting _ _ Hq), (quiet_tasks _ _ r Hq).
      rewrite (qt_awaiting _ _ Hq0), (quiet_tasks _ _ r Hq0).
      repeat (split; [done|]).
      rewrite run_then_adopting, (Hpop r). by case_decide.
Qed.



(** The turn of run [r] in which the promise it follows hands over its
    outcome. *)
Lemma own_adopt w r o js :
  microtasks w = MAdopt r o :: js ->
  r < length (runs w) -> run_result (run_of r w) = None ->
  let w' := step w EvTick in
  run_result (run_of r w') = settles r o /\
  awaiting r w' = awaiting r w /\ tasks_of r w' = tasks_of r w /\
  adopting_of r w' + match settles r o with Some _ => 1 | None => 0 end = adopting_of r w /\
  log w' = log w.
Proof.
  intros Hm Hlt Hnone. simpl. rewrite Hm.
  destruct (pop_follow (MAdopt r o) js w r Hm) as (Hq0 & Hruns & Hpop); [done..|].
  pose proof (run_adopt_quiet r o (set_microtasks js w)) as Hq.
  destruct (run_adopt_result r o (set_microtasks js w)) as (Hres & Had); [done..|].
  rewrite Hres, Had, (qt_awaiting _ _ Hq), (quiet_tasks _ _ r Hq), (qt_log _ _ Hq).
  rewrite (qt_awaiting _ _ Hq0), (quiet_tasks _ _ r Hq0).
  repeat (split; [done|]). split; [|done].
  rewrite (Hpop r), decide_True by done. destruct (settles r o); lia.
Qed.

(** *** The records under one identifier *)

(** Whether the event is a call of the [i]th invoker. *)
Definition calls (i : nat) (ev : event) : bool :=
  match ev with EvCall j _ _ => Nat.eqb j i | _ => false end.



(** *** What every step keeps of a run *)

(** An error that escaped a job stays on record. *)
Lemma unhandled_step w ev e : e ∈ unhandled w -> e ∈ unhandled (step w ev).
Proof.
  intros He. destruct ev as [name gen|j ctx args|name ctx args|n o|]; simpl.
  - done.
  - destruct (invokers w !! j) as [x|]; [|done].
    by destruct (call_fields x ctx args w) as (_ & _ & -> & _).
  - unfold createActionInvoker. by destruct (acting w).
  - by destruct (settle_fields (HOp n) o w) as (_ & _ & _ & _ & ->).
  - destruct (microtasks w) as [|[j|r o|r h] js] eqn:Hm.
    + destruct (immediates w) as [|t ts] eqn:Him; [done|].
      unfold run_immediate. rewrite run_task_eq. cbn [snd].
      rewrite (qt_unhandled _ _ (finish_quiet _ _)).
      by destruct (reported_fields (task_record t (set_immediates ts w)) (set_immediates ts w))
        as (_ & _ & _ & _ & _ & _ & _ & -> & _).
    + rewrite run_job_eq.
      destruct (advance _ _ _ _) as [res w'] eqn:Hadv.
      destruct (advance_frame _ _ _ _ _ _ Hadv) as (_ & _ & _ & _ & _ & _ & _ & Hun & _).
      destruct res as [[]|e']; cbn [unhandled set_unhandled].
      * by rewrite Hun.
      * apply elem_of_app. left. by rewrite Hun.
    + by rewrite (qt_unhandled _ _ (run_adopt_quiet _ _ _)).
    + by rewrite (qt_unhandled _ _ (run_then_quiet _ _ _)).
Qed.

Lemma unhandled_exec w evs e : e ∈ unhandled w -> e ∈ unhandled (exec w evs).
Proof.
  revert w. induction evs as [|ev evs IH]; intros w He; [done|].
  simpl. by apply IH, unhandled_step.
Qed.

(** The run whose turn it is has a continuation at the head of a queue, or
    follows a promise that has settled. *)
Lemma turn_pending w ev r :
  turn_of w ev = Some r -> 0 < pending_of r w + adopting_of r w.
Proof.
  destruct ev as [name gen|j ctx args|name ctx args|n o|]; try discriminate.
  simpl. destruct (microtasks w) as [|[j|r' o|r' h] js] eqn:Hm.
  - destruct (immediates w) as [|t ts] eqn:Him; [done|].
    intros [= <-]. rewrite (pending_pop_task t ts w _ Him), decide_True by done. lia.
  - intros [= <-]. rewrite (pending_pop_job j js w _ Hm), decide_True by done. lia.
  - intros [= <-]. unfold adopting_of. rewrite Hm. simpl. rewrite Nat.eqb_refl. simpl. lia.
  - done.
Qed.

(** A run that has no continuation and follows no promise is never resumed
    and never settled. *)
Lemma idle_step w ev r :
  r < length (runs w) -> pending_of r w = 0 -> adopting_of r w = 0 ->
  run_of r (step w ev) = run_of r w /\ pending_of r (step w ev) = 0 /\
  adopting_of r (step w ev) = 0 /\ r < length (runs (step w ev)).
Proof.
  intros Hr Hidle Hnot.
  assert (turn_of w ev ≠ Some r) as Hturn.
  { intros Ht. apply turn_pending in Ht. lia. }
  destruct (step_other_view w ev r Hr Hturn) as (Hrun & Haw & Htk & Had).
  split; [done|]. split; [|split].
  - rewrite pending_awaiting, Haw, Htk, <- pending_awaiting. done.
  - by rewrite Had.
  - destruct (step_runs w ev) as [_ [->|(j & c & a & x' & _ & _ & -> & _)]]; lia.
Qed.

Lemma idle_exec w evs r :
  r < length (runs w) -> pending_of r w = 0 -> adopting_of r w = 0 ->
  run_of r (exec w evs) = run_of r w /\ pending_of r (exec w evs) = 0 /\
  adopting_of r (exec w evs) = 0.
Proof.
  revert w. induction evs as [|ev evs IH]; intros w Hr Hidle Hnot; [done|].
  destruct (idle_step w ev r Hr Hidle Hnot) as (Hrun & Hp & Ha & Hlt).
  simpl. destruct (IH (step w ev) Hlt Hp Ha) as (-> & -> & ->). done.
Qed.


(** *** The records of one run, for every generator *)


Section OneRun.

Variables (i : nat) (x : invoker) (r n0 : nat).

Hypothesis Hid : inv_runId x = S i.






















(** *** The records of a run that awaits [n] operations *)

Variable P : value -> Prop.



Variable n : nat.













End OneRun.



(** *** Properties of the coordinator *)


(** X2. A call of an asynchronous action returns a new promise and, within
    the call, reports one record, whatever the generator does: the call
    itself, under mode [invoke], with the arguments of the call, the name
    and the identifier of the invoker and the receiver of the call; the
    kick-off of the generator runs within that action and is not reported
    (and a call made within a running action reports nothing). The promise
    is never fulfilled when the call returns, not even when the generator
    returns at once; it is already rejected exactly when the first step
    yields what is no promise, and then with the error of [fail]. *)
Theorem call_reports_invoke_only x ctx args w :
  let r := length (runs w) in
  let out := asyncAction x ctx args w in
  out.1 = Ok (VPromise (HRun r)) /\
  length (runs out.2) = S r /\
  emitted_since (length (log w)) out.2 =
    (if acting w then [] else [Call (inv_name x) ModeInvoke (inv_runId x) ctx args]) /\
  acting out.2 = acting w /\
  (forall v, run_result (run_of r out.2) ≠ Some (Fulfilled v)) /\
  (run_result (run_of r out.2) ≠ None <->
   exists v g', resume (inv_generator x ctx args) (Next VUndefined) = Yielded v g' /\
                has_then v = false) /\
  (run_result (run_of r out.2) ≠ None ->
   run_result (run_of r out.2) = Some (Rejected invalid_yield)).
Proof.
  intros r out.
  destruct (call_view w x ctx args) as (Hret & Hlen & _ & _ & _ & _ & Hlog & Hcase).
  destruct (call_fields x ctx args w) as (_ & _ & _ & Hact).
  fold r in Hret, Hlen, Hcase. fold out in Hret, Hlen, Hlog, Hcase, Hact.
  split; [done|]. split; [done|].
  split; [unfold emitted_since; by rewrite Hlog, drop_app_length|].
  split; [done|].
  destruct (resume (inv_generator x ctx args) (Next VUndefined)) as [v g'|v|e].
  - assert ((exists h, v = VPromise h) \/
            (has_then v = false /\
             run_result (run_of r out.2) = Some (Rejected invalid_yield)))
      as [[h ->]|[Hv Hres]].
    { destruct v; try (right; split; [reflexivity|tauto]). left. eauto. }
    + destruct Hcase as (_ & Hres & _). rewrite Hres.
      split; [done|]. split; [|done].
      split; [done|]. intros (v & g'' & [= <- _] & Hv). discriminate Hv.
    + rewrite Hres. split; [done|]. split; [|done].
      split; [|done]. intros _. eauto.
  - destruct Hcase as (Hres & _). rewrite Hres.
    split; [done|]. split; [|done]. split; [done|]. by intros (? & ? & [=] & _).
  - destruct Hcase as (Hres & _). rewrite Hres.
    split; [done|]. split; [|done]. split; [done|]. by intros (? & ? & [=] & _).
Qed.

(** X3. A run never has two continuations: at any time at most one
    reaction registered by [then], reaction job or [setImmediate] callback
    belongs to it, so its generator is never resumed twice for one awaited
    operation; a run that has one is a run whose promise is still pending,
    and a run whose promise is settled has none left. *)
Theorem run_has_one_continuation w :
  reachable w ->
  forall r,
    pending_of r w <= 1 /\
    (0 < pending_of r w -> r < length (runs w) /\ run_result (run_of r w) = None) /\
    (forall o, run_result (run_of r w) = Some o -> pending_of r w = 0).
Proof.
  intros Hreach r. destruct (reachable_wf w Hreach) as [_ _ Hone Hlive _ _ _].
  split; [done|]. split; [apply Hlive|].
  intros o Ho. destruct (pending_of r w) as [|k] eqn:Hk; [done|].
  destruct (Hlive r) as [_ Hnone]; [lia|]. congruence.
Qed.



(** X6. When a step after the first yields what is no promise, the run is
    left for ever as it is: the reaction job reports the step, the error of
    [fail] escapes the job and reaches nobody, no continuation of the run is
    left, and so, whatever happens afterwards, the generator stays suspended
    where it was and the promise that the call returned is never settled,
    neither rejected nor fulfilled. *)
Theorem late_invalid_yield_never_settles w (j : job) js g v g' evs :
  reachable w ->
  microtasks w = MJob j :: js ->
  run_gen (run_of (job_run j) w) = GSuspended g ->
  resume g (job_signal j) = Yielded v g' ->
  has_then v = false ->
  let r := job_run j in
  let w1 := step w EvTick in
  let w' := exec w1 evs in
  emitted_since (length (log w)) w1 =
    [step_record r (job_mode j) (signal_arg (job_signal j)) w] /\
  run_of r w' = run_of r w1 /\
  run_gen (run_of r w') = GSuspended g' /\
  run_result (run_of r w') = None /\
  pending_of r w' = 0 /\
  invalid_yield ∈ unhandled w'.
Proof.
  intros Hreach Hm Hg Hres Hv r w1 w'.
  pose proof (reachable_wf w Hreach) as Hwf.
  pose proof (pending_pop_job j js w r Hm) as Hpop.
  rewrite decide_True in Hpop by done.
  pose proof (wf_single w Hwf r) as Hone.
  destruct (wf_live w Hwf r) as [Hlt Hnone]; [lia|].
  assert (adopting_of r w = 0) as Hnot.
  { destruct (adopting_of r w) as [|k] eqn:Hk; [done|].
    destruct (wf_adopt w Hwf r) as (H0 & _); lia. }
  set (wp := set_microtasks js w) in Hpop.
  set (m := resumed r (job_mode j) (job_signal j) (Some (GSuspended g')) wp).
  assert (w1 = set_unhandled (unhandled m ++ [invalid_yield]) m) as Hw1.
  { unfold w1. simpl. rewrite Hm, run_job_eq. fold r. fold wp.
    assert (run_gen (run_of r wp) = GSuspended g) as Hgp by exact Hg.
    by rewrite (advance_invalid _ _ _ _ _ _ g' Hgp Hres Hv). }
  destruct (resumed_fields r (job_mode j) (job_signal j) (Some (GSuspended g')) wp)
    as (_ & _ & _ & _ & _ & _ & _ & Hlen & _). fold m in Hlen.
  assert (run_of r w1 =
          Run (run_name (run_of r w)) (run_runId (run_of r w)) (run_ctx (run_of r w))
            (GSuspended g') None) as Hrun.
  { rewrite Hw1. change (run_of r (set_unhandled ?l m)) with (run_of r m).
    unfold m, resumed. rewrite run_of_set_gen.
    - rewrite run_of_reported. change (run_of r wp) with (run_of r w). by rewrite Hnone.
    - by destruct (reported_fields
                     (step_record r (job_mode j)
                        (match job_signal j with Next v => v | Throw e => e end) wp) wp)
        as (_ & _ & -> & _). }
  assert (pending_of r w1 = 0) as Hidle.
  { rewrite Hw1.
    change (pending_of r (set_unhandled ?l m)) with (pending_of r m).
    destruct (resumed_pending r r (job_mode j) (job_signal j) (Some (GSuspended g')) wp)
      as (Hw' & Hj' & Ht'). fold m in Hw', Hj', Ht'.
    unfold pending_of in *. rewrite Hw', Hj', Ht'. lia. }
  assert (adopting_of r w1 = 0) as Hnot1.
  { rewrite Hw1.
    change (adopting_of r (set_unhandled ?l m)) with (adopting_of r m).
    unfold m. rewrite resumed_adopting.
    unfold adopting_of in *. rewrite Hm in Hnot. simpl in *. lia. }
  assert (r < length (runs w1)) as Hlt1.
  { rewrite Hw1. change (r < length (runs m)). by rewrite Hlen. }
  destruct (idle_exec w1 evs r Hlt1 Hidle Hnot1) as (Hsame & Hp & _).
  fold w' in Hsame, Hp.
  split.
  { unfold w1. rewrite emitted_step by by apply wf_quiet. simpl. by rewrite Hm. }
  split; [done|]. rewrite Hsame, Hrun. repeat (split; [done|]).
  apply unhandled_exec. rewrite Hw1. apply elem_of_app. right.
  apply list_elem_of_here.
Qed.

(** X7. Every record that a run reports carries the identity of its call:
    a step keeps the name, the identifier and the receiver held by every
    run; a record reported in the turn of a run, by a reaction job or by a
    [setImmediate] callback, carries the name, the identifier and the
    receiver of that run, and is no [invoke] record; and a call gives its
    run, and the record it reports, the name and the identifier of the
    invoker and the receiver of the call. *)
Theorem records_carry_call_identity w ev :
  (forall r, r < length (runs w) ->
     run_name (run_of r (step w ev)) = run_name (run_of r w) /\
     run_runId (run_of r (step w ev)) = run_runId (run_of r w) /\
     run_ctx (run_of r (step w ev)) = run_ctx (run_of r w)) /\
  (forall r c, turn_of w ev = Some r ->
     c ∈ emitted_since (length (log w)) (step w ev) ->
     call_name c = run_name (run_of r w) /\
     call_runId c = run_runId (run_of r w) /\
     call_object c = run_ctx (run_of r w) /\
     call_mode c ≠ ModeInvoke /\ call_mode c ≠ ModeNone) /\
  (forall j x ctx args c, ev = EvCall j ctx args -> invokers w !! j = Some x ->
     run_name (run_of (length (runs w)) (step w ev)) = inv_name x /\
     run_runId (run_of (length (runs w)) (step w ev)) = inv_runId x /\
     run_ctx (run_of (length (runs w)) (step w ev)) = ctx /\
     (c ∈ emitted_since (length (log w)) (step w ev) ->
      call_name c = inv_name x /\ call_runId c = inv_runId x /\ call_object c = ctx)).
Proof.
  assert (emitted_since (length (log w)) (step w ev)
          = if acting w then [] else step_emits w ev) as Hem.
  { unfold emitted_since. by rewrite log_step_any, drop_app_length. }
  rewrite Hem. split; [|split].
  - intros r Hr. by apply step_static.
  - intros r c Hturn.
    destruct (acting w); [by intros ?%elem_of_nil|].
    destruct ev as [name gen|j ctx args|name ctx args|n o|]; try discriminate.
    simpl in Hturn |- *.
    destruct (microtasks w) as [|[j|r' o|r' h] js].
    + destruct (immediates w) as [|t ts]; [done|].
      injection Hturn as <-. intros ->%list_elem_of_singleton.
      by destruct t.
    + injection Hturn as <-. intros ->%list_elem_of_singleton.
      unfold job_mode. by destruct (job_outcome j).
    + by intros ?%elem_of_nil.
    + done.
  - intros j x ctx args c -> Hx. simpl. rewrite Hx.
    destruct (call_view w x ctx args) as (_ & _ & _ & Hname & Hrid & Hctx & _).
    repeat (split; [done|]).
    destruct (acting w); [by intros ?%elem_of_nil|].
    by intros ->%list_elem_of_singleton.
Qed.

(** X8. The runs do not disturb one another: a step that is not a turn of
    run [r] (a call of an action, a settlement of an operation, a callback
    of another run) leaves the generator and the promise of [r] as they
    were, and [r] with the continuations it had. *)
Theorem runs_are_isolated w ev r :
  r < length (runs w) -> turn_of w ev ≠ Some r ->
  run_of r (step w ev) = run_of r w /\
  pending_of r (step w ev) = pending_of r w /\
  tasks_of r (step w ev) = tasks_of r w.
Proof.
  intros Hr Hturn.
  destruct (step_other_view w ev r Hr Hturn) as (Hrun & Haw & Htk & _).
  split; [done|]. split; [|done].
  by rewrite !pending_awaiting, Haw, Htk.
Qed.


(** X10. A promise that is resolved with another promise follows it: at
    any time the promise of a run follows at most one promise, and a
    promise that does is pending and its run has no continuation left. The
    job that the resolution queued calls [then] on the promise to follow,
    which queues the job of the outcome when that promise is settled and
    registers a reaction when it is not; and the job of the outcome settles
    the promise of the run with that outcome, or makes it follow one more
    promise. None of these jobs reports a record. *)
Theorem returned_promise_is_followed w :
  reachable w ->
  (forall r, adopting_of r w <= 1 /\
     (0 < adopting_of r w ->
      pending_of r w = 0 /\ r < length (runs w) /\ run_result (run_of r w) = None)) /\
  (forall r h js, microtasks w = MThen r h :: js ->
     let w' := step w EvTick in
     runs w' = runs w /\ log w' = log w /\
     match status h w with
     | Some o => microtasks w' = js ++ [MAdopt r o] /\ waiting w' = waiting w
     | None => microtasks w' = js /\ waiting w' = waiting w ++ [(h, Adopt r)]
     end) /\
  (forall r o js, microtasks w = MAdopt r o :: js ->
     let w' := step w EvTick in
     run_result (run_of r w') = settles r o /\ log w' = log w /\
     adopting_of r w' = match settles r o with Some _ => 0 | None => 1 end).
Proof.
  intros Hreach. pose proof (reachable_wf w Hreach) as Hwf.
  split; [|split].
  - intros r. split; [by apply wf_follow|by apply wf_adopt].
  - intros r h js Hm. simpl. rewrite Hm. unfold run_then.
    change (status h (set_microtasks js w)) with (status h w).
    by destruct (status h w).
  - intros r o js Hm.
    assert (0 < adopting_of r w) as Hpos.
    { unfold adopting_of. rewrite Hm. simpl. rewrite Nat.eqb_refl. simpl. lia. }
    pose proof (wf_follow w Hwf r) as Hone.
    destruct (wf_adopt w Hwf r Hpos) as (_ & Hlt & Hnone).
    destruct (own_adopt w r o js Hm Hlt Hnone) as (Hres & _ & _ & Had & Hlog).
    split; [done|]. split; [done|]. destruct (settles r o); lia.
Qed.

End Coordinator.

Arguments Ok {A} a.
Arguments Thrown {A} e.
Arguments Yielded {G} v g.
Arguments Returned {G} v.
Arguments Raised {G} e.
Arguments GSuspended {G} g.
Arguments GClosed {G}.
Arguments GUndefined {G}.
Arguments EvCreate {G} name generator.
Arguments EvCall {G} i ctx args.
Arguments EvSync {G} name ctx args.
Arguments EvSettle {G} n o.
Arguments EvTick {G}.
Arguments Invoker {G} inv_name inv_generator inv_runId.
Arguments init_world {G}.
Arguments exec {G} resume w evs.
Arguments step {G} resume w ev.
Arguments asyncAction {G} resume inv ctx args.
Arguments onFulfilled {G} resume r res.
Arguments onRejected {G} resume r err.
Arguments next {G} r ret.
Arguments log {G} w.
Arguments runs {G} w.
Arguments run_of {G} r w.
Arguments immediates {G} w.
Arguments microtasks {G} w.
Arguments waiting {G} w.
Arguments unhandled {G} w.
Arguments pending_of {G} r w.
Arguments emitted_since {G} n w.
Arguments step_record {G} r mode arg w.
Arguments run_result {G} r.
Arguments run_runId {G} r.
Arguments run_gen {G} r.
Arguments inv_runId {G} i.
Arguments task_record {G} t w.

Arguments generatorId {G} w.
Arguments invokers {G} w.
Arguments acting {G} w.
Arguments adopting_of {G} r w.

(** *** Example step sequences *)

(** [function* () { const a = yield op0; const b = yield op1; return "ok" }],
    its states numbered by the statement it is suspended at. *)
Definition two_awaits (g : nat) (s : signal) : step_result nat :=
  match s with
  | Throw e => Raised e
  | Next _ =>
      match g with
      | 0 => Yielded (VPromise (HOp 0)) 1
      | 1 => Yielded (VPromise (HOp 1)) 2
      | _ => Returned (VStr "ok")
      end
  end.

(** [function* () { yield 5 }]: the first step yields a number. *)
Definition yields_number (g : nat) (s : signal) : step_result nat :=
  match s with
  | Throw e => Raised e
  | Next _ =>
      match g with
      | 0 => Yielded (VNum 5) 1
      | _ => Returned VUndefined
      end
  end.

(** [function* () { yield op0; yield 5 }]: the second step yields a number. *)
Definition yields_number_later (g : nat) (s : signal) : step_result nat :=
  match s with
  | Throw e => Raised e
  | Next _ =>
      match g with
      | 0 => Yielded (VPromise (HOp 0)) 1
      | 1 => Yielded (VNum 5) 2
      | _ => Returned VUndefined
      end
  end.

Definition root : node := Node 0 [].

Definition fetch : invoker nat := Invoker "fetch" (fun _ _ => 0) 1.

(** The program creates the action and calls it once. *)
Definition called_once : list (event nat) :=
  [EvCreate "fetch" (fun _ _ => 0); EvCall 0 root []].


(** [function* () { return op0 }]: the generator returns a promise. *)
Definition returns_operation (g : nat) (s : signal) : step_result nat :=
  match s with
  | Throw e => Raised e
  | Next _ => Returned (VPromise (HOp 0))
  end.


(** *** The claims on the examples *)


(** The program has created the action and not called it yet. *)
Definition created : world nat :=
  exec two_awaits init_world [EvCreate "fetch" (fun _ _ => 0)].


(** The world in which the [return] callback of the run is queued: both
    operations have succeeded and their jobs have run. *)
Definition before_return : world nat :=
  exec two_awaits init_world
    (called_once ++
     [EvSettle 0 (Fulfilled (VNum 1)); EvTick;
      EvSettle 1 (Fulfilled (VNum 2)); EvTick]).

Lemma terminal_record_is_deferred_witness :
  emitted_since (length (log before_return)) (step two_awaits before_return EvTick)
    = [Call "fetch" ModeReturn 1 root [VStr "ok"]] /\
  run_result (run_of 0 before_return) = None /\
  run_result (run_of 0 (step two_awaits before_return EvTick))
    = Some (Fulfilled (VStr "ok")).
Proof.
  destruct (terminal_record_is_deferred nat two_awaits before_return)
    as (_ & _ & H & _).
  destruct (H (reachable_exec _ _ _ _ (reachable_init _ _))
              EvTick (Call "fetch" ModeReturn 1 root [VStr "ok"]))
    as (t & ts & _ & _ & Him & Hem & _ & Hnone & Hres).
  - vm_compute. apply list_elem_of_here.
  - reflexivity.
  - assert (t = TReturn 0 (VStr "ok")) as -> by (vm_compute in Him; congruence).
    split; [exact Hem|]. split; [exact Hnone|exact Hres].
Defined.

(** The world in which the run waits for its second operation. *)
Definition awaiting_second : world nat :=
  exec two_awaits init_world
    (called_once ++ [EvSettle 0 (Fulfilled (VNum 1)); EvTick]).


(** C7, counterexample. When the first step yields a number the promise is
    rejected with the error of [fail], whose message is not the one of the
    claim; and when a later step does, the error escapes the reaction job and
    the promise of the run stays pending for ever: nothing is left to run. *)
Lemma invalid_yield_message_and_settlement :
  let w := exec yields_number init_world called_once in
  let w' := exec yields_number_later init_world
              (called_once ++ [EvSettle 0 (Fulfilled (VNum 1)); EvTick]) in
  run_result (run_of 0 w) =
    Some (Rejected (VError
      "[mobx-state-tree] Only promises can be yielded to `async`, got: [object Object]")) /\
  run_result (run_of 0 w) <>
    Some (Rejected (VError
      "only pending asynchronous operations can be yielded to an async action")) /\
  run_result (run_of 0 w') = None /\
  pending_of 0 w' = 0 /\ microtasks w' = [] /\ immediates w' = [] /\
  unhandled w' = [invalid_yield].
Proof. vm_compute. repeat split; discriminate. Qed.

Lemma invalid_yield_is_fatal_witness :
  run_result
    (run_of (length (runs created))
       (step yields_number created (EvCall 0 root [])))
  = Some (Rejected invalid_yield).
Proof.
  destruct (invalid_yield_is_fatal nat yields_number created) as (_ & _ & H & _).
  destruct (H 0 fetch root [] (VNum 5) 1) as [Hres _].
  - reflexivity.
  - reflexivity.
  - reflexivity.
  - exact Hres.
Defined.

(** C4. Two calls of the invoker that [createAsyncActionInvoker] returned
    run under the same identifier, whatever the generator, the receivers and
    the arguments are: [runId] is taken from the counter when the invoker is
    created, not when it is called, so the records of the two runs cannot be
    told apart by it. With one invoker called twice, the log holds invoke,
    invoke, both under identifier 1, and, once the operation that both runs
    await has succeeded and their jobs have run, invoke, invoke, yield,
    yield, all four under identifier 1. *)
Theorem invocations_share_runId :
  (forall G (resume : G -> signal -> step_result G) (x : invoker G)
          ctx1 args1 ctx2 args2 (w : world G),
     let w1 := (asyncAction resume x ctx1 args1 w).2 in
     let w2 := (asyncAction resume x ctx2 args2 w1).2 in
     length (runs w2) = S (S (length (runs w))) /\
     run_runId (run_of (length (runs w)) w2) = inv_runId x /\
     run_runId (run_of (S (length (runs w))) w2) = inv_runId x) /\
  (let w := exec two_awaits init_world
              [EvCreate "fetch" (fun _ _ => 0); EvCall 0 root []; EvCall 0 root []] in
   let w' := exec two_awaits w [EvSettle 0 (Fulfilled (VNum 1)); EvTick; EvTick] in
   length (runs w) = 2 /\
   run_runId (run_of 0 w) = 1 /\ run_runId (run_of 1 w) = 1 /\
   List.map call_runId (log w) = [1; 1] /\
   List.map call_mode (log w) = [ModeInvoke; ModeInvoke] /\
   List.map call_runId (log w') = [1; 1; 1; 1] /\
   List.map call_mode (log w') = [ModeInvoke; ModeInvoke; ModeYield; ModeYield]).
Proof.
  split.
  - intros G resume x ctx1 args1 ctx2 args2 w w1 w2.
    destruct (asyncAction_runs G resume x ctx1 args1 w) as [Hlen1 _].
    destruct (asyncAction_runs G resume x ctx2 args2 w1) as [Hlen2 Hold2].
    fold w1 in Hlen1. fold w1 in Hlen2, Hold2. fold w2 in Hlen2, Hold2.
    split; [by rewrite Hlen2, Hlen1|]. split.
    + rewrite Hold2 by (rewrite Hlen1; lia).
      apply (asyncAction_runId G resume x ctx1 args1 w).
    + rewrite <- Hlen1. apply (asyncAction_runId G resume x ctx2 args2 w1).
  - vm_compute. repeat split.
Qed.

(** *** The further properties on the examples *)




Lemma run_has_one_continuation_witness : pending_of 0 awaiting_second <= 1.
Proof.
  exact (proj1 (run_has_one_continuation nat two_awaits awaiting_second
                  (reachable_exec _ _ _ _ (reachable_init _ _)) 0)).
Defined.



(** The world in which the job that resumes the run after its first
    operation is queued; the generator will yield a number. *)
Definition about_to_yield_number : world nat :=
  exec yields_number_later init_world
    (called_once ++ [EvSettle 0 (Fulfilled (VNum 1))]).

Lemma late_invalid_yield_never_settles_witness :
  run_result
    (run_of 0
       (exec yields_number_later
          (step yields_number_later about_to_yield_number EvTick)
          [EvTick; EvSettle 0 (Rejected (VStr "late")); EvTick]))
  = None.
Proof.
  destruct (late_invalid_yield_never_settles nat yields_number_later
              about_to_yield_number (Job 0 (Fulfilled (VNum 1))) [] 1 (VNum 5) 2
              [EvTick; EvSettle 0 (Rejected (VStr "late")); EvTick])
    as (_ & _ & _ & H & _).
  - apply reachable_exec, reachable_init.
  - reflexivity.
  - reflexivity.
  - reflexivity.
  - reflexivity.
  - exact H.
Defined.

Lemma runs_are_isolated_witness :
  run_of 0 (step two_awaits awaiting_second (EvCall 0 root [])) =
  run_of 0 awaiting_second.
Proof.
  destruct (runs_are_isolated nat two_awaits awaiting_second (EvCall 0 root []) 0)
    as (H & _).
  - vm_compute. lia.
  - discriminate.
  - exact H.
Defined.


(** The world in which the promise of the run, resolved with the promise of
    operation 0, has registered its reaction, the operation has succeeded
    with 7, and the job of that outcome is queued. *)
Definition about_to_adopt : world nat :=
  exec returns_operation init_world
    (called_once ++ [EvTick; EvTick; EvSettle 0 (Fulfilled (VNum 7))]).

Lemma returned_promise_is_followed_witness :
  run_result (run_of 0 (step returns_operation about_to_adopt EvTick))
  = settles 0 (Fulfilled (VNum 7)) /\
  log (step returns_operation about_to_adopt EvTick) = log about_to_adopt.
Proof.
  destruct (returned_promise_is_followed nat returns_operation about_to_adopt)
    as (_ & _ & H).
  - apply reachable_exec, reachable_init.
  - destruct (H 0 (Fulfilled (VNum 7)) []) as (H1 & H2 & _); [reflexivity|].
    split; assumption.
Defined.

End Async.

(** ** Part II: interception, recording and replay of synchronous actions

    The interceptor, the argument serialiser, the listener registry, the
    recorder and the path resolver are code of the repository that is not
    among the sources: only their tests are ([test/action.ts]). They are
    modelled here from the specification, and the models of the tests are
    translated from the test file. *)
Module Actions.

(** *** Paths *)

(** Modelled from the spec: the path resolver (section 4.1) is not among the
    sources. A path is the list of the property names and indices from the
    root to the node; in a record it is written with a slash before every
    segment, the root being the empty string. *)
Fixpoint join (l : list string) : string :=
  match l with
  | [] => ""
  | x :: l' =>
      match l' with
      | [] => x
      | _ => x +:+ "/" +:+ join l'
      end
  end.

Definition joinJsonPath (l : list string) : string :=
  match l with
  | [] => ""
  | _ => "/" +:+ join l
  end.

Fixpoint split (s : string) : list string :=
  match s with
  | EmptyString => [""]
  | String c s' =>
      if Ascii.eqb c "/"%char then "" :: split s'
      else match split s' with
           | h :: t => String c h :: t
           | [] => [String c ""]
           end
  end.

(** The segments of a path written as a string, absolute (a leading slash)
    or relative. *)
Definition splitJsonPath (s : string) : list string :=
  match s with
  | EmptyString => []
  | String c s' => if Ascii.eqb c "/"%char then split s' else split s
  end.

Fixpoint no_slash (s : string) : bool :=
  match s with
  | EmptyString => true
  | String c s' => negb (Ascii.eqb c "/"%char) && no_slash s'
  end.

(** A segment names a property or an index: it is not empty, holds no slash
    and is not the parent segment. *)
Definition segment_ok (s : string) : bool :=
  no_slash s && negb (String.eqb s "") && negb (String.eqb s "..").

(** Modelled from the spec: [relativePathBetween(fromNode, toNode)], which
    may use [..] segments: up from the base to the deepest common ancestor,
    then down to the target. *)
Fixpoint relative (base target : list string) : list string :=
  match base, target with
  | b :: bs, t :: ts =>
      if String.eqb b t then relative bs ts
      else replicate (length base) ".." ++ target
  | _, _ => replicate (length base) ".." ++ target
  end.

Definition getRelativePath (base target : list string) : string :=
  join (relative base target).

(** Walking a relative path from a base: [..] goes to the parent, which the
    root does not have; any other segment goes to that child. *)
Fixpoint resolve (base parts : list string) : option (list string) :=
  match parts with
  | [] => Some base
  | p :: ps =>
      if String.eqb p ".." then
        match base with
        | [] => None
        | _ => resolve (removelast base) ps
        end
      else resolve (base ++ [p]) ps
  end.

Definition resolvePath (base : list string) (path : string) : option (list string) :=
  resolve base (splitJsonPath path).

(** *** Paths: writing and reading back *)

Lemma split_segment x rest :
  no_slash x = true -> split (x +:+ "/" +:+ rest) = x :: split rest.
Proof.
  induction x as [|c x IH]; intros Hx; [reflexivity|].
  simpl in Hx. apply andb_true_iff in Hx as [Hc Hx].
  simpl. destruct (Ascii.eqb c "/"); [discriminate|].
  by rewrite (IH Hx).
Qed.

Lemma split_last x : no_slash x = true -> split x = [x].
Proof.
  induction x as [|c x IH]; intros Hx; [reflexivity|].
  simpl in Hx. apply andb_true_iff in Hx as [Hc Hx].
  simpl. destruct (Ascii.eqb c "/"); [discriminate|].
  by rewrite (IH Hx).
Qed.

Lemma split_join l :
  l ≠ [] -> Forall (fun x => no_slash x = true) l -> split (join l) = l.
Proof.
  induction l as [|x l IH]; intros Hne Hall; [done|].
  inversion Hall as [|? ? Hx Hl]; subst.
  destruct l as [|y l].
  - simpl. by apply split_last.
  - change (join (x :: y :: l)) with (x +:+ "/" +:+ join (y :: l)).
    rewrite split_segment by done. f_equal. by apply IH.
Qed.

Lemma segment_ok_spec x :
  segment_ok x = true -> no_slash x = true /\ x ≠ "" /\ x ≠ "..".
Proof.
  unfold segment_ok. intros H.
  apply andb_true_iff in H as [H H3]. apply andb_true_iff in H as [H1 H2].
  split; [done|]. split.
  - intros ->. discriminate.
  - intros ->. discriminate.
Qed.

(** A path that was written is read back as it was. *)
Lemma splitJsonPath_join l :
  Forall (fun x => no_slash x = true /\ x ≠ "") l -> splitJsonPath (join l) = l.
Proof.
  intros Hall. destruct l as [|x l]; [reflexivity|].
  assert (split (join (x :: l)) = x :: l) as Hs.
  { apply split_join; [done|]. eapply Forall_impl; [exact Hall|]. by intros ? [? ?]. }
  inversion Hall as [|? ? [Hx Hne] Hl]; subst.
  destruct x as [|c x]; [done|].
  unfold splitJsonPath.
  assert (exists s', join (String c x :: l) = String c s') as [s' Hj].
  { destruct l; simpl; eauto. }
  rewrite Hj in *. simpl in Hx. apply andb_true_iff in Hx as [Hc _].
  destruct (Ascii.eqb c "/"); [discriminate|]. exact Hs.
Qed.

Lemma splitJsonPath_joinJsonPath l :
  Forall (fun x => no_slash x = true /\ x ≠ "") l ->
  splitJsonPath (joinJsonPath l) = l.
Proof.
  intros Hall. destruct l as [|x l]; [reflexivity|].
  unfold joinJsonPath, splitJsonPath.
  change ("/" +:+ join (x :: l)) with (String "/" (join (x :: l))).
  simpl Ascii.eqb. cbv iota.
  apply split_join; [done|]. eapply Forall_impl; [exact Hall|]. by intros ? [? ?].
Qed.

Lemma resolve_down base target :
  Forall (fun x => x ≠ "..") target -> resolve base target = Some (base ++ target).
Proof.
  revert base. induction target as [|t target IH]; intros base Hall.
  - by rewrite app_nil_r.
  - inversion Hall as [|? ? Ht Hl]; subst. simpl.
    destruct (String.eqb_spec t ".."); [done|].
    rewrite IH by done. by rewrite <- app_assoc.
Qed.

Lemma resolve_up pre base rest :
  resolve (pre ++ base) (replicate (length base) ".." ++ rest) = resolve pre rest.
Proof.
  induction base as [|b base IH] using rev_ind.
  - by rewrite app_nil_r.
  - rewrite length_app. simpl length. rewrite Nat.add_1_r.
    change (replicate (S (length base)) ".." ++ rest)
      with (".." :: (replicate (length base) ".." ++ rest)).
    rewrite app_assoc. simpl resolve.
    destruct ((pre ++ base) ++ [b]) as [|z zs] eqn:Hz.
    { exfalso. destruct (pre ++ base); discriminate. }
    rewrite <- Hz, removelast_last. exact IH.
Qed.

(** Resolving the relative path from the base leads to the target. *)
Lemma resolve_relative pre base target :
  Forall (fun x => x ≠ "..") target ->
  resolve (pre ++ base) (relative base target) = Some (pre ++ target).
Proof.
  revert pre target. induction base as [|b base IH]; intros pre target Hall.
  - simpl. rewrite app_nil_r. by apply resolve_down.
  - destruct target as [|t target].
    + rewrite app_nil_r. exact (resolve_up pre (b :: base) []).
    + simpl relative. destruct (String.eqb_spec b t) as [->|Hne].
      * inversion Hall; subst.
        replace (pre ++ t :: base) with ((pre ++ [t]) ++ base) by (by rewrite <- app_assoc).
        replace (pre ++ t :: target) with ((pre ++ [t]) ++ target) by (by rewrite <- app_assoc).
        by apply IH.
      * transitivity (resolve pre (t :: target)).
        -- exact (resolve_up pre (b :: base) (t :: target)).
        -- by apply resolve_down.
Qed.

Lemma relative_segments base target :
  Forall (fun x => segment_ok x = true) target ->
  Forall (fun x => no_slash x = true /\ x ≠ "") (relative base target).
Proof.
  intros Hall.
  assert (Forall (fun x => no_slash x = true /\ x ≠ "") target) as Ht.
  { eapply Forall_impl; [exact Hall|]. intros x Hx.
    destruct (segment_ok_spec x Hx) as (? & ? & ?). done. }
  assert (forall n, Forall (fun x => no_slash x = true /\ x ≠ "")
                      (replicate n ".." ++ target)) as Hups.
  { intros n. apply Forall_app. split; [|done].
    apply Forall_replicate. done. }
  revert target Hall Ht Hups. induction base as [|b base IH]; intros target Hall Ht Hups.
  - apply (Hups 0).
  - destruct target as [|t target]; [apply (Hups (S (length base)))|].
    simpl. destruct (String.eqb b t); [|apply (Hups (S (length base)))].
    inversion Hall; inversion Ht; subst.
    apply IH; [done|done|].
    intros n. apply Forall_app. split; [by apply Forall_replicate|done].
Qed.

(** The relative path, written by [getRelativePath] and read back by
    [resolvePath] from the same place in any tree, names the target. *)
Lemma resolvePath_getRelativePath base target :
  Forall (fun x => segment_ok x = true) target ->
  resolvePath base (getRelativePath base target) = Some target.
Proof.
  intros Hall. unfold resolvePath, getRelativePath.
  rewrite splitJsonPath_join by (by apply relative_segments).
  apply (resolve_relative [] base target).
  eapply Forall_impl; [exact Hall|]. intros x Hx.
  by destruct (segment_ok_spec x Hx) as (? & ? & ?).
Qed.

(** *** Snapshots *)

(** A snapshot is a plain JSON value; so is a serialised argument. The live
    state of a tree is held as the snapshot of its root. *)
#[local] Unset Elimination Schemes.
Inductive json :=
| JNull
| JBool (b : bool)
| JNum (z : Z)
| JStr (s : string)
| JArr (l : list json)
| JObj (fields : list (string * json)).
#[local] Set Elimination Schemes.

Fixpoint field (k : string) (fields : list (string * json)) : option json :=
  match fields with
  | [] => None
  | (k', v) :: rest => if String.eqb k' k then Some v else field k rest
  end.

(** [o[k] = v]: the property is replaced where it stands, or added last. *)
Fixpoint set_field (k : string) (v : json) (fields : list (string * json))
    : list (string * json) :=
  match fields with
  | [] => [(k, v)]
  | (k', v') :: rest =>
      if String.eqb k' k then (k', v) :: rest else (k', v') :: set_field k v rest
  end.

Definition digit (c : ascii) : option nat :=
  let n := nat_of_ascii c in
  if (48 <=? n) && (n <=? 57) then Some (n - 48) else None.

Fixpoint parse_digits (acc : nat) (s : string) : option nat :=
  match s with
  | EmptyString => Some acc
  | String c s' =>
      match digit c with
      | Some d => parse_digits (10 * acc + d) s'
      | None => None
      end
  end.

(** An array index written as a path segment. *)
Definition parse_index (s : string) : option nat :=
  match s with
  | EmptyString => None
  | _ => parse_digits 0 s
  end.

Definition child (seg : string) (j : json) : option json :=
  match j with
  | JObj fields => field seg fields
  | JArr l =>
      match parse_index seg with
      | Some i => l !! i
      | None => None
      end
  | _ => None
  end.

(** The value at a path below [j]. *)
Fixpoint json_get (path : list string) (j : json) : option json :=
  match path with
  | [] => Some j
  | seg :: rest =>
      match child seg j with
      | Some c => json_get rest c
      | None => None
      end
  end.

Definition set_child (seg : string) (c : json) (j : json) : option json :=
  match j with
  | JObj fields => Some (JObj (set_field seg c fields))
  | JArr l =>
      match parse_index seg with
      | Some i => if decide (i < length l) then Some (JArr (<[i := c]> l)) else None
      | None => None
      end
  | _ => None
  end.

(** [j] with the value at [path] replaced by [v]; the last segment may name
    a property that an object does not have yet. *)
Fixpoint json_set (path : list string) (v : json) (j : json) : option json :=
  match path with
  | [] => Some v
  | seg :: rest =>
      match rest with
      | [] => set_child seg v j
      | _ =>
          match child seg j with
          | Some c =>
              match json_set rest v c with
              | Some c' => set_child seg c' j
              | None => None
              end
          | None => None
          end
      end
  end.

(** *** Arguments and their serialisation *)

(** What a caller can pass to an action: a primitive, a node of a tree, a
    plain array or object, or any other object of the host, of which only
    the kind matters. [RBack] stands, inside a plain array or object, for a
    reference back to one of the objects that enclose it: a structure with
    one contains a reference cycle. *)
#[local] Unset Elimination Schemes.
Inductive raw :=
| RUndefined
| RNull
| RBool (b : bool)
| RNum (z : Z)
| RStr (s : string)
| RNode (n : node)
| RArr (l : list raw)
| RObj (fields : list (string * raw))
| RBack (depth : nat)
| RHost (kind : string).
#[local] Set Elimination Schemes.

(** Why an argument cannot be serialised. *)
Inductive fault := OtherTree | Cyclic | HostObject (kind : string).

(** The errors of section 7. *)
Inductive error :=
| CrossTreeReferenceError (message : string)
| NotSerializableError (message : string)
| TypeValidationError (message : string)
| BrokenReferenceError (message : string)
| UnknownActionError (message : string).

(** Mapping a function that may fail over the members of an array or of an
    object, from the first on; the first failure ends it. *)
Definition traverse {A C E} (f : A -> E + C) : list A -> E + list C :=
  fix go (l : list A) : E + list C :=
    match l with
    | [] => inr []
    | x :: l' =>
        match f x with
        | inl e => inl e
        | inr y =>
            match go l' with
            | inl e => inl e
            | inr ys => inr (y :: ys)
            end
        end
    end.

Definition traverse_fields {A C E} (f : A -> E + C)
    : list (string * A) -> E + list (string * C) :=
  traverse (fun kx => match f kx.2 with inl e => inl e | inr y => inr (kx.1, y) end).

(** Modelled from the spec: the argument serialiser (section 4.2) is not
    among the sources. A primitive passes through, a node of the tree of the
    acting node becomes a reference by relative path, a plain array or object
    is serialised member by member, and a node of another tree, a reference
    cycle or any other host object is a fault. *)
Fixpoint encode (ctx : node) (v : raw) : fault + json :=
  match v with
  | RUndefined | RNull => inr JNull
  | RBool b => inr (JBool b)
  | RNum z => inr (JNum z)
  | RStr s => inr (JStr s)
  | RNode n =>
      if decide (node_tree n = node_tree ctx) then
        inr (JObj [("$ref", JStr (getRelativePath (node_path ctx) (node_path n)))])
      else inl OtherTree
  | RArr l => sum_map id JArr (traverse (encode ctx) l)
  | RObj fields => sum_map id JObj (traverse_fields (encode ctx) fields)
  | RBack _ => inl Cyclic
  | RHost kind => inl (HostObject kind)
  end.

(** The message of a fault, with the name of the action and the index of
    the argument, as [test/action.ts] expects it. *)
Definition fault_error (name : string) (index : nat) (f : fault) : error :=
  let intro :=
    "Argument " +:+ pretty index +:+ " that was passed to action '" +:+ name +:+ "' " in
  match f with
  | OtherTree =>
      CrossTreeReferenceError
        (intro +:+ "is a model that is not part of the same state tree. Consider passing a snapshot or some representative ID instead")
  | Cyclic => NotSerializableError (intro +:+ "is not serializable.")
  | HostObject kind =>
      NotSerializableError
        (intro +:+ "should be a primitive, model object or plain object, received a " +:+ kind)
  end.

Definition serializeArgument (name : string) (index : nat) (ctx : node) (arg : raw)
    : error + json :=
  match encode ctx arg with
  | inl f => inl (fault_error name index f)
  | inr j => inr j
  end.

(** The arguments of a call, serialised from the first on; the first fault
    ends it. *)
Fixpoint serializeArguments (name : string) (index : nat) (ctx : node)
    (args : list raw) : error + list json :=
  match args with
  | [] => inr []
  | arg :: rest =>
      match serializeArgument name index ctx arg with
      | inl e => inl e
      | inr j =>
          match serializeArguments name (S index) ctx rest with
          | inl e => inl e
          | inr js => inr (j :: js)
          end
      end
  end.

(** The path of a serialised reference, if the value is one. *)
Definition ref_path (j : json) : option string :=
  match j with
  | JObj [(k, JStr p)] => if String.eqb k "$ref" then Some p else None
  | _ => None
  end.

(** Modelled from the spec: deserialisation (section 4.2), the inverse of
    [encode]. A reference is resolved against the context node of the tree
    that is replayed onto, whose state is [data]; a path that leads to no
    node of that tree is an error. *)
Fixpoint decode (data : json) (ctx : node) (j : json) : error + raw :=
  match ref_path j with
  | Some p =>
      match resolvePath (node_path ctx) p with
      | Some target =>
          match json_get target data with
          | Some _ => inr (RNode (Node (node_tree ctx) target))
          | None => inl (BrokenReferenceError ("cannot resolve reference " +:+ p))
          end
      | None => inl (BrokenReferenceError ("cannot resolve reference " +:+ p))
      end
  | None =>
      match j with
      | JNull => inr RNull
      | JBool b => inr (RBool b)
      | JNum z => inr (RNum z)
      | JStr s => inr (RStr s)
      | JArr l => sum_map id RArr (traverse (decode data ctx) l)
      | JObj fields => sum_map id RObj (traverse_fields (decode data ctx) fields)
      end
  end.

Fixpoint deserializeArguments (data : json) (ctx : node) (args : list json)
    : error + list raw :=
  match args with
  | [] => inr []
  | j :: rest =>
      match decode data ctx j with
      | inl e => inl e
      | inr v =>
          match deserializeArguments data ctx rest with
          | inl e => inl e
          | inr vs => inr (v :: vs)
          end
      end
  end.

(** *** Action bodies *)

(** The body of an action runs against the state of its tree: it reads and
    writes properties, may read snapshots, and returns a value or raises. *)
Definition B (A : Type) : Type := json -> (error + A) * json.

Definition retB {A} (a : A) : B A := fun d => (inr a, d).
Definition throwB {A} (e : error) : B A := fun d => (inl e, d).
Definition bindB {A C} (m : B A) (k : A -> B C) : B C :=
  fun d => match m d with
           | (inr a, d') => k a d'
           | (inl e, d') => (inl e, d')
           end.

Notation "'let*' x ':=' m 'in' k" := (bindB m (fun x => k))
  (at level 10, x name, m at level 100, k at level 200).

(** [node.k] *)
Definition get_prop (this : node) (k : string) : B json :=
  fun d => (inr (default JNull (json_get (node_path this ++ [k]) d)), d).

(** [node.k = v] *)
Definition set_prop (this : node) (k : string) (v : json) : B unit :=
  fun d => match json_set (node_path this ++ [k]) v d with
           | Some d' => (inr tt, d')
           | None => (inl (TypeValidationError ("cannot assign property " +:+ k)), d)
           end.

(** A user function as the interceptor receives it: the receiver, the
    arguments, the body. *)
Definition action_fn : Type := node -> list raw -> B raw.

(** *** Trees, listeners and recorders *)

(** The record of a call, as listeners receive it and recorders keep it. *)
Record action_record := ActionRecord {
  name : string;
  path : string;
  args : list json
}.

(** A subscriber of the registry: a recorder, which appends what it gets to
    its log, or a callback of the user, whose effect is not modelled. *)
Inductive listener := Recorder (k : nat) | Callback.

#[global] Instance listener_eq_dec : EqDecision listener.
Proof. solve_decision. Defined.

(** A tree: its state and the actions that its model declares, by the path
    of the node and the name of the action. *)
Record tree := Tree {
  t_data : json;
  t_actions : list string -> string -> option action_fn
}.

(** The trees, by identity; the listener registry, from the identity of a
    root to its subscribers in subscription order; the logs of the
    recorders. *)
Record world := World {
  trees : list tree;
  registry : gmap nat (list listener);
  recorders : list (list action_record)
}.

Definition init_world : world := World [] ∅ [].

Definition W (A : Type) : Type := world -> (error + A) * world.

Definition listeners_of (t : nat) (w : world) : list listener :=
  default [] (registry w !! t).

Definition notify (r : action_record) (w : world) (l : listener) : world :=
  match l with
  | Recorder k => World (trees w) (registry w) (alter (fun log => log ++ [r]) k (recorders w))
  | Callback => w
  end.

(** Modelled from the spec: [publish] of the listener registry (section
    4.4) calls the subscribers of the root in subscription order. *)
Definition publish (t : nat) (r : action_record) (w : world) : world :=
  foldl (notify r) w (listeners_of t w).

Definition subscribe (t : nat) (l : listener) (w : world) : world :=
  World (trees w) (<[t := listeners_of t w ++ [l]]> (registry w)) (recorders w).

(** [Model.create(snapshot)] *)
Definition create (actions : list string -> string -> option action_fn)
    (snapshot : json) (w : world) : node * world :=
  (Node (length (trees w)) [],
   World (trees w ++ [Tree snapshot actions]) (registry w) (recorders w)).

(** [onAction(node, () => {})] *)
Definition onAction (n : node) (w : world) : world :=
  subscribe (node_tree n) Callback w.

(** [recordActions(node)]: a new recorder, subscribed to the root. *)
Definition recordActions (n : node) (w : world) : nat * world :=
  (length (recorders w),
   subscribe (node_tree n) (Recorder (length (recorders w)))
     (World (trees w) (registry w) (recorders w ++ [[]]))).

(** [recorder.actions] *)
Definition actions (k : nat) (w : world) : list action_record :=
  default [] (recorders w !! k).

(** The state of the tree of a node, and the snapshot of the node. *)
Definition data_of (t : nat) (w : world) : json :=
  default JNull (t_data <$> trees w !! t).

Definition snapshot (n : node) (w : world) : json :=
  default JNull (json_get (node_path n) (data_of (node_tree n) w)).

(** Running a body against the state of tree [t]. *)
Definition run_body {A} (t : nat) (m : B A) : W A :=
  fun w =>
    match trees w !! t with
    | Some tr =>
        let '(res, d') := m (t_data tr) in
        (res, World (<[t := Tree d' (t_actions tr)]> (trees w)) (registry w) (recorders w))
    | None => (inl (BrokenReferenceError "the node is not part of a tree"), w)
    end.

(** *** The interceptor *)

(** Modelled from the spec: [createActionInvoker] of [./action] (section
    4.3) is not among the sources. This is the interceptor as a top-level
    call of a synchronous action goes through it, with the tree and the
    listeners that Part I leaves out (there the interceptor is what the
    coordinator calls: it reports the record of a call that is not nested,
    with its mode and run identifier, and runs the function). Before the
    user function runs, the path of the acting node and the serialised
    arguments are computed and the record is built; a fault of an argument
    is raised at once, and nothing else happens; otherwise the record is
    published to the listeners of the root and the function runs against
    the tree, its result being the result of the call. *)
Definition createActionInvoker (name : string) (fn : action_fn)
    : node -> list raw -> W raw :=
  fun this args w =>
    match serializeArguments name 0 this args with
    | inl e => (inl e, w)
    | inr sargs =>
        run_body (node_tree this) (fn this args)
          (publish (node_tree this)
             (ActionRecord name (joinJsonPath (node_path this)) sargs) w)
    end.

(** [node.name(args)]: the action that the model declares for the node
    under that name, called through the interceptor with the node as
    receiver. *)
Definition call_method (n : node) (name : string) (args : list raw) : W raw :=
  fun w =>
    match trees w !! node_tree n with
    | Some tr =>
        match t_actions tr (node_path n) name with
        | Some fn => createActionInvoker name fn n args w
        | None => (inl (UnknownActionError name), w)
        end
    | None => (inl (UnknownActionError name), w)
    end.

(** *** Patches, snapshots and replay *)

Fixpoint rfield (k : string) (fields : list (string * raw)) : option raw :=
  match fields with
  | [] => None
  | (k', v) :: rest => if String.eqb k' k then Some v else rfield k rest
  end.

(** One patch operation, [{ op, path, value }], applied below [this]: the
    value at the path is replaced, or added. The patch format itself is out
    of the scope of the specification. *)
Definition apply_patch (this : node) (p : raw) : B unit :=
  match p with
  | RObj fields =>
      match rfield "op" fields, rfield "path" fields, rfield "value" fields with
      | Some (RStr op), Some (RStr at_), Some v =>
          if String.eqb op "replace" || String.eqb op "add" then
            match encode this v with
            | inr j =>
                fun d =>
                  match json_set (node_path this ++ splitJsonPath at_) j d with
                  | Some d' => (inr tt, d')
                  | None => (inl (TypeValidationError ("cannot apply patch at " +:+ at_)), d)
                  end
            | inl _ => throwB (TypeValidationError "the value of a patch is not plain")
            end
          else throwB (TypeValidationError ("unsupported patch operation " +:+ op))
      | _, _, _ => throwB (TypeValidationError "malformed patch")
      end
  | _ => throwB (TypeValidationError "malformed patch")
  end.

Fixpoint apply_patches (this : node) (ps : list raw) : B unit :=
  match ps with
  | [] => retB tt
  | p :: rest => let* _ := apply_patch this p in apply_patches this rest
  end.

(** The function behind the pseudo-action [@APPLY_PATCHES]: its argument is
    the sequence of patches. *)
Definition applyPatches_fn : action_fn :=
  fun this args =>
    match args with
    | [RArr ps] => let* _ := apply_patches this ps in retB RUndefined
    | _ => throwB (TypeValidationError "malformed patches")
    end.

(** The function behind the pseudo-action [@APPLY_SNAPSHOT]: the subtree at
    the node is replaced by the snapshot. *)
Definition applySnapshot_fn : action_fn :=
  fun this args =>
    match args with
    | [s] =>
        match encode this s with
        | inr j =>
            fun d =>
              match json_set (node_path this) j d with
              | Some d' => (inr RUndefined, d')
              | None => (inl (TypeValidationError "cannot apply the snapshot"), d)
              end
        | inl _ => throwB (TypeValidationError "the snapshot is not plain")
        end
    | _ => throwB (TypeValidationError "malformed snapshot")
    end.

(** [applyPatch(node, patch | patches)] and [applySnapshot(node, snapshot)],
    wrapped by the interceptor as pseudo-actions. *)
Definition applyPatch (n : node) (patches : list raw) : W raw :=
  createActionInvoker "@APPLY_PATCHES" applyPatches_fn n [RArr patches].

Definition applySnapshot (n : node) (s : raw) : W raw :=
  createActionInvoker "@APPLY_SNAPSHOT" applySnapshot_fn n [s].

(** Modelled from the spec: replay (section 4.6). For each record, in the
    order of the log: the path is resolved against the target to find the
    acting node; the arguments are deserialised against that node; and the
    patches are applied, the snapshot is applied, or the named action of the
    node is called. The first error ends the replay. *)
Definition applyAction (target : node) (r : action_record) : W raw :=
  fun w =>
    match resolve (node_path target) (splitJsonPath (path r)) with
    | None => (inl (BrokenReferenceError ("cannot resolve path " +:+ path r)), w)
    | Some p =>
        let n := Node (node_tree target) p in
        match deserializeArguments (data_of (node_tree n) w) n (args r) with
        | inl e => (inl e, w)
        | inr vs =>
            if String.eqb (name r) "@APPLY_PATCHES" then
              createActionInvoker "@APPLY_PATCHES" applyPatches_fn n vs w
            else if String.eqb (name r) "@APPLY_SNAPSHOT" then
              createActionInvoker "@APPLY_SNAPSHOT" applySnapshot_fn n vs w
            else call_method n (name r) vs w
        end
    end.

Fixpoint applyActions (target : node) (rs : list action_record) : W unit :=
  fun w =>
    match rs with
    | [] => (inr tt, w)
    | r :: rest =>
        match applyAction target r w with
        | (inl e, w') => (inl e, w')
        | (inr _, w') => applyActions target rest w'
        end
    end.

(** [recorder.replay(target)] *)
Definition replay (k : nat) (target : node) : W unit :=
  fun w => applyActions target (actions k w) w.

(** *** The models of [test/action.ts] *)

Definition truthy (j : json) : bool :=
  match j with
  | JNull => false
  | JBool b => b
  | JNum z => negb (Z.eqb z 0)
  | JStr s => negb (String.eqb s "")
  | JArr _ | JObj _ => true
  end.

Definition raw_of_json_prim (j : json) : raw :=
  match j with
  | JBool b => RBool b
  | JNum z => RNum z
  | JStr s => RStr s
  | _ => RNull
  end.

(** [toggle() { this.done = !this.done; return this.done }] *)
Definition Task_toggle : action_fn :=
  fun this _ =>
    let* d := get_prop this "done" in
    let* _ := set_prop this "done" (JBool (negb (truthy d))) in
    let* d' := get_prop this "done" in
    retB (raw_of_json_prim d').

(** [const Task = types.model({ done: false }, { toggle() {...} })] *)
Definition Task_actions (p : list string) (nm : string) : option action_fn :=
  match p with
  | [] => if String.eqb nm "toggle" then Some Task_toggle else None
  | _ => None
  end.

Definition Task_create : world -> node * world :=
  create Task_actions (JObj [("done", JBool false)]).

(** Whether the path is that of an element of the array [k] of the root. *)
Definition element_of (k : string) (p : list string) : bool :=
  match p with
  | [a; i] => String.eqb a k && bool_decide (is_Some (parse_index i))
  | _ => false
  end.

(** Modelled from the spec: the type system (section 6) is not among the
    sources. A property of type [maybe(reference(Customer))] holds the
    identifier of its target: assigning a customer of the same tree stores
    the customer's [id], assigning [null] or an identifier stores it, and
    anything else is not assignable. *)
Definition assign_customer_reference (this : node) (k : string) (v : raw) : B unit :=
  match v with
  | RNull | RUndefined => set_prop this k JNull
  | RNum z => set_prop this k (JNum z)
  | RNode n =>
      if bool_decide (node_tree n = node_tree this) && element_of "customers" (node_path n)
      then let* id := get_prop n "id" in set_prop this k id
      else throwB (TypeValidationError
                     "value is not assignable to type: `reference(Customer) | null`")
  | _ => throwB (TypeValidationError
                   "value is not assignable to type: `reference(Customer) | null`")
  end.

(** [setCustomer(customer) { this.customer = customer }] *)
Definition Order_setCustomer : action_fn :=
  fun this args =>
    let* _ := assign_customer_reference this "customer" (List.hd RUndefined args) in
    retB RUndefined.

Definition OrderStore_actions (p : list string) (nm : string) : option action_fn :=
  if element_of "orders" p && String.eqb nm "setCustomer"
  then Some Order_setCustomer else None.

(** [createTestStore()] *)
Definition createTestStore (w : world) : node * world :=
  let '(store, w1) :=
    create OrderStore_actions
      (JObj [("customers", JArr [JObj [("id", JNum 1); ("name", JStr "Mattia")]]);
             ("orders", JArr [JObj [("customer", JNull)]])]) w in
  (store, onAction store w1).

Fixpoint find_id (id : Z) (i : nat) (l : list json) : option nat :=
  match l with
  | [] => None
  | c :: rest =>
      match child "id" c with
      | Some (JNum z) => if Z.eqb z id then Some i else find_id id (S i) rest
      | _ => find_id id (S i) rest
      end
  end.

(** [order.customer]: a reference reads as the node of the same tree that
    carries the identifier held by the property. *)
Definition Order_customer (order : node) (w : world) : option node :=
  let d := data_of (node_tree order) w in
  match json_get (node_path order ++ ["customer"]) d, json_get ["customers"] d with
  | Some (JNum id), Some (JArr l) =>
      match find_id id 0 l with
      | Some i => Some (Node (node_tree order) ["customers"; pretty i])
      | None => None
      end
  | _, _ => None
  end.

(** [store.customers[i]] and [store.orders[i]] *)
Definition element (store : node) (k : string) (i : nat) : node :=
  Node (node_tree store) (node_path store ++ [k; pretty i]).

(** *** References to nodes *)

(** C2. An argument that is a node of the tree of the acting node is
    serialised as a reference whose path is the relative path from the
    acting node to it; and deserialising that reference against the node at
    the same place in a tree that has a node at the place of the argument
    gives that node. In the scenario of the test, the customer at
    [/customers/0] passed to the order at [/orders/0] is recorded as the
    reference [../../customers/0], and after the replay onto a second store
    the customer of its order is its own [/customers/0] and the snapshots of
    the two stores are equal. *)
Theorem reference_round_trip :
  (forall ctx n data' ctx',
     node_tree n = node_tree ctx ->
     node_path ctx' = node_path ctx ->
     Forall (fun x => segment_ok x = true) (node_path n) ->
     is_Some (json_get (node_path n) data') ->
     encode ctx (RNode n) =
       inr (JObj [("$ref", JStr (getRelativePath (node_path ctx) (node_path n)))]) /\
     decode data' ctx'
       (JObj [("$ref", JStr (getRelativePath (node_path ctx) (node_path n)))])
     = inr (RNode (Node (node_tree ctx') (node_path n)))) /\
  (let '(store, w1) := createTestStore init_world in
   let '(k, w2) := recordActions store w1 in
   let w3 :=
     (call_method (element store "orders" 0) "setCustomer"
        [RNode (element store "customers" 0)] w2).2 in
   let '(store2, w4) := createTestStore w3 in
   let w5 := (replay k store2 w4).2 in
   actions k w3 =
     [ActionRecord "setCustomer" "/orders/0" [JObj [("$ref", JStr "../../customers/0")]]] /\
   Order_customer (element store "orders" 0) w3 = Some (element store "customers" 0) /\
   (replay k store2 w4).1 = inr tt /\
   Order_customer (element store2 "orders" 0) w5 = Some (element store2 "customers" 0) /\
   snapshot store2 w5 = snapshot store w3 /\
   snapshot store w5 =
     JObj [("customers", JArr [JObj [("id", JNum 1); ("name", JStr "Mattia")]]);
           ("orders", JArr [JObj [("customer", JNum 1)]])]).
Proof.
  split.
  - intros ctx n data' ctx' Htree Hctx Hsegs [c Hc]. split.
    + simpl. by rewrite decide_True.
    + change (decode data' ctx' (JObj [("$ref", JStr ?p)]))
        with (match resolvePath (node_path ctx') p with
              | Some target =>
                  match json_get target data' with
                  | Some _ => inr (RNode (Node (node_tree ctx') target))
                  | None => inl (BrokenReferenceError ("cannot resolve reference " +:+ p))
                  end
              | None => inl (BrokenReferenceError ("cannot resolve reference " +:+ p))
              end).
      rewrite Hctx, resolvePath_getRelativePath by done. by rewrite Hc.
  - vm_compute. repeat split.
Qed.

(** *** Recording *)

(** A top-level call of an action or of a pseudo-action: the name, the
    function that the interceptor wraps, the acting node, the arguments. *)
Record top_call := TopCall {
  tc_name : string;
  tc_fn : action_fn;
  tc_node : node;
  tc_args : list raw
}.

(** The calls are made one after the other; a call that raises is over, and
    the next one is made. *)
Definition run_calls (calls : list top_call) (w : world) : world :=
  foldl (fun w c => (createActionInvoker (tc_name c) (tc_fn c) (tc_node c) (tc_args c) w).2)
    w calls.

(** The record of a call: its name, the path of the acting node from the
    root, the serialised arguments; none when an argument does not
    serialise. *)
Definition record_of (c : top_call) : option action_record :=
  match serializeArguments (tc_name c) 0 (tc_node c) (tc_args c) with
  | inr sargs =>
      Some (ActionRecord (tc_name c) (joinJsonPath (node_path (tc_node c))) sargs)
  | inl _ => None
  end.

(** How many times recorder [k] is among the listeners. *)
Fixpoint subscriptions (k : nat) (l : list listener) : nat :=
  match l with
  | [] => 0
  | Recorder k' :: rest => (if decide (k' = k) then 1 else 0) + subscriptions k rest
  | Callback :: rest => subscriptions k rest
  end.

(** The registry only names recorders that exist. *)
Definition registry_ok (w : world) : Prop :=
  forall t k, 0 < subscriptions k (listeners_of t w) -> k < length (recorders w).

Lemma publish_fold r l w :
  trees (foldl (notify r) w l) = trees w /\
  registry (foldl (notify r) w l) = registry w /\
  length (recorders (foldl (notify r) w l)) = length (recorders w) /\
  forall k, k < length (recorders w) ->
    default [] (recorders (foldl (notify r) w l) !! k)
    = default [] (recorders w !! k) ++ replicate (subscriptions k l) r.
Proof.
  revert w. induction l as [|x l IH]; intros w.
  - simpl. repeat split; try done. intros k _. by rewrite app_nil_r.
  - simpl foldl. destruct (IH (notify r w x)) as (Ht & Hr & Hlen & Hk).
    destruct x as [k'|]; simpl in *.
    + rewrite length_alter in *. repeat split; try done.
      intros k Hlt. rewrite (Hk k Hlt).
      destruct (decide (k' = k)) as [->|Hne]; simpl.
      * rewrite list_lookup_alter_eq.
        destruct (lookup_lt_is_Some_2 _ _ Hlt) as [log ->]. simpl.
        by rewrite <- app_assoc.
      * by rewrite list_lookup_alter_ne.
    + repeat split; try done.
Qed.

Lemma run_body_keeps {A} t (m : B A) w :
  registry (run_body t m w).2 = registry w /\
  recorders (run_body t m w).2 = recorders w.
Proof.
  unfold run_body. destruct (trees w !! t) as [tr|]; [|done].
  by destruct (m (t_data tr)) as [res d'].
Qed.

(** One call adds its record once for each subscription of the recorder to
    the root of the acting node, and keeps the registry. *)
Lemma createActionInvoker_actions c w k :
  let w' := (createActionInvoker (tc_name c) (tc_fn c) (tc_node c) (tc_args c) w).2 in
  registry w' = registry w /\
  length (recorders w') = length (recorders w) /\
  (k < length (recorders w) ->
   actions k w' =
   actions k w ++
   match record_of c with
   | Some r => replicate (subscriptions k (listeners_of (node_tree (tc_node c)) w)) r
   | None => []
   end).
Proof.
  unfold createActionInvoker, record_of, actions.
  destruct (serializeArguments (tc_name c) 0 (tc_node c) (tc_args c)) as [e|sargs].
  - simpl. repeat split; try done. intros _. by rewrite app_nil_r.
  - set (r := ActionRecord (tc_name c) (joinJsonPath (node_path (tc_node c))) sargs).
    destruct (publish_fold r (listeners_of (node_tree (tc_node c)) w) w)
      as (Ht & Hr & Hlen & Hk).
    fold (publish (node_tree (tc_node c)) r w) in Ht, Hr, Hlen, Hk.
    destruct (run_body_keeps (node_tree (tc_node c)) (tc_fn c (tc_node c) (tc_args c))
                (publish (node_tree (tc_node c)) r w)) as (Hr' & Hrec').
    rewrite Hr', Hrec'. repeat split; try done. apply Hk.
Qed.

Lemma run_calls_actions calls w k t :
  k < length (recorders w) ->
  subscriptions k (listeners_of t w) = 1 ->
  Forall (fun c => node_tree (tc_node c) = t) calls ->
  actions k (run_calls calls w) = actions k w ++ omap record_of calls.
Proof.
  revert w. induction calls as [|c calls IH]; intros w Hk Hsub Hall.
  - simpl. by rewrite app_nil_r.
  - inversion Hall as [|? ? Hc Hrest]; subst.
    destruct (createActionInvoker_actions c w k) as (Hreg & Hlen & Hact).
    simpl run_calls.
    rewrite IH; [| by rewrite Hlen | by unfold listeners_of; rewrite Hreg | done].
    rewrite (Hact Hk), Hsub. simpl omap.
    destruct (record_of c) as [r|]; simpl; by rewrite <- app_assoc.
Qed.

Lemma subscriptions_app k l1 l2 :
  subscriptions k (l1 ++ l2) = subscriptions k l1 + subscriptions k l2.
Proof.
  induction l1 as [|[k'|] l1 IH]; simpl; [done| |done]. rewrite IH. lia.
Qed.

Lemma recordActions_subscribed n w :
  registry_ok w ->
  let '(k, w') := recordActions n w in
  k < length (recorders w') /\ actions k w' = [] /\
  subscriptions k (listeners_of (node_tree n) w') = 1.
Proof.
  intros Hok. unfold recordActions, subscribe, actions, listeners_of. simpl.
  rewrite length_app. simpl. split; [lia|]. split.
  - rewrite lookup_app_r by lia. by rewrite Nat.sub_diag.
  - rewrite lookup_insert_eq. simpl. rewrite subscriptions_app. simpl.
    rewrite decide_True by done.
    destruct (subscriptions (length (recorders w))
                (default [] (registry w !! node_tree n))) as [|m] eqn:Hm; [done|].
    specialize (Hok (node_tree n) (length (recorders w))).
    unfold listeners_of in Hok. rewrite Hm in Hok. lia.
Qed.

(** [{ op: "replace", path: "done", value: true }] *)
Definition replace_done : raw :=
  RObj [("op", RStr "replace"); ("path", RStr "done"); ("value", RBool true)].

(** Whether the arguments of the call serialise. *)
Definition serialises (c : top_call) : bool :=
  match serializeArguments (tc_name c) 0 (tc_node c) (tc_args c) with
  | inr _ => true
  | inl _ => false
  end.

(** The string [s] is the path of the node at [p] from the root: read from
    the root it leads to [p]; it is empty for the root and starts with a
    slash for any other node. *)
Definition path_from_root (p : list string) (s : string) : Prop :=
  resolvePath [] s = Some p /\
  match p with
  | [] => s = ""
  | _ => exists s', s = String "/" s'
  end.

(** The record [r] is that of the call [c]: it has the name called, the
    path of the acting node from the root, and the arguments of the call as
    they serialise for the acting node. *)
Definition recorded (c : top_call) (r : action_record) : Prop :=
  name r = tc_name c /\
  path_from_root (node_path (tc_node c)) (path r) /\
  serializeArguments (tc_name c) 0 (tc_node c) (tc_args c) = inr (args r).

Lemma joinJsonPath_from_root p :
  Forall (fun x => segment_ok x = true) p -> path_from_root p (joinJsonPath p).
Proof.
  intros Hp. split.
  - unfold resolvePath. rewrite splitJsonPath_joinJsonPath.
    + apply (resolve_down [] p). eapply Forall_impl; [exact Hp|].
      intros x Hx. by destruct (segment_ok_spec x Hx) as (? & ? & ?).
    + eapply Forall_impl; [exact Hp|].
      intros x Hx. by destruct (segment_ok_spec x Hx) as (? & ? & ?).
  - destruct p as [|x p]; [done|]. by exists (join (x :: p)).
Qed.

Lemma omap_recorded calls :
  Forall (fun c => Forall (fun x => segment_ok x = true) (node_path (tc_node c))) calls ->
  Forall2 recorded (List.filter serialises calls) (omap record_of calls).
Proof.
  induction 1 as [|c calls Hc Hcalls IH]; [constructor|].
  simpl. unfold serialises, record_of.
  destruct (serializeArguments (tc_name c) 0 (tc_node c) (tc_args c)) as [e|sargs] eqn:Hs;
    [exact IH|].
  constructor; [|exact IH].
  split; [done|]. split; [by apply joinJsonPath_from_root|done].
Qed.

Lemma filter_all {A} (f : A -> bool) l : forallb f l = true -> List.filter f l = l.
Proof.
  induction l as [|x l IH]; [done|]. simpl.
  intros [Hx Hl]%andb_true_iff. rewrite Hx. f_equal. by apply IH.
Qed.

(** C1. After a recorder is attached to a tree, whatever top-level calls of
    actions and pseudo-actions are made on nodes of that tree, the log of
    the recorder holds, in the order of the calls, one record for each call
    whose arguments serialise (a call with an argument that does not is
    rejected before it is made), with the name called, the path of the
    acting node from the root (the empty string for the root, and a string
    that starts with a slash and leads from the root to the node otherwise)
    and the serialised arguments: as many records as calls when all
    arguments serialise. In the tests, three calls of [toggle] on a root
    [Task] leave three records [toggle] at path [""] without arguments,
    [applyPatch] and [applySnapshot] leave one record [@APPLY_PATCHES] or
    [@APPLY_SNAPSHOT], a plain object passed to [toggle] is recorded as it
    is, and replaying each log onto a second [Task] sets its [done] to
    [true]; and [setCustomer] called on the order at [/orders/0] of a store
    leaves one record with the path [/orders/0]. *)
Theorem recorder_logs_every_call :
  (forall w n calls,
     registry_ok w ->
     Forall (fun c => node_tree (tc_node c) = node_tree n) calls ->
     Forall (fun c => Forall (fun x => segment_ok x = true) (node_path (tc_node c)))
       calls ->
     let k := (recordActions n w).1 in
     let w' := run_calls calls (recordActions n w).2 in
     Forall2 recorded (List.filter serialises calls) (actions k w') /\
     (forallb serialises calls = true -> length (actions k w') = length calls)) /\
  (let '(t1, w1) := Task_create init_world in
   let '(t2, w2) := Task_create w1 in
   let '(k, w3) := recordActions t1 w2 in
   let w4 := (call_method t1 "toggle" [] w3).2 in
   let w5 := (call_method t1 "toggle" [] w4).2 in
   let w6 := (call_method t1 "toggle" [] w5).2 in
   actions k w6 =
     [ActionRecord "toggle" "" []; ActionRecord "toggle" "" [];
      ActionRecord "toggle" "" []] /\
   snapshot t2 w6 = JObj [("done", JBool false)] /\
   (replay k t2 w6).1 = inr tt /\
   snapshot t2 (replay k t2 w6).2 = JObj [("done", JBool true)]) /\
  (let '(t1, w1) := Task_create init_world in
   let '(t2, w2) := Task_create w1 in
   let '(k, w3) := recordActions t1 w2 in
   let w4 := (applyPatch t1 [replace_done] w3).2 in
   snapshot t1 w4 = JObj [("done", JBool true)] /\
   actions k w4 =
     [ActionRecord "@APPLY_PATCHES" ""
        [JArr [JObj [("op", JStr "replace"); ("path", JStr "done");
                     ("value", JBool true)]]]] /\
   snapshot t2 (replay k t2 w4).2 = JObj [("done", JBool true)]) /\
  (let '(t1, w1) := Task_create init_world in
   let '(t2, w2) := Task_create w1 in
   let '(k, w3) := recordActions t1 w2 in
   let w4 := (applySnapshot t1 (RObj [("done", RBool true)]) w3).2 in
   snapshot t1 w4 = JObj [("done", JBool true)] /\
   actions k w4 =
     [ActionRecord "@APPLY_SNAPSHOT" "" [JObj [("done", JBool true)]]] /\
   snapshot t2 (replay k t2 w4).2 = JObj [("done", JBool true)]) /\
  (let '(t1, w1) := Task_create init_world in
   let '(t2, w2) := Task_create w1 in
   let '(k, w3) := recordActions t1 w2 in
   let w4 :=
     (call_method t1 "toggle"
        [RObj [("bla", RArr [RStr "nuff"; RArr [RStr "said"]])]] w3).2 in
   actions k w4 =
     [ActionRecord "toggle" ""
        [JObj [("bla", JArr [JStr "nuff"; JArr [JStr "said"]])]]] /\
   snapshot t2 (replay k t2 w4).2 = JObj [("done", JBool true)]) /\
  (let '(store, w1) := createTestStore init_world in
   let '(k, w2) := recordActions store w1 in
   let w3 :=
     (call_method (element store "orders" 0) "setCustomer"
        [RNode (element store "customers" 0)] w2).2 in
   actions k w3 =
     [ActionRecord "setCustomer" "/orders/0"
        [JObj [("$ref", JStr "../../customers/0")]]]).
Proof.
  split; [|split; [|split; [|split; [|split]]]].
  - intros w n calls Hok Hall Hsegs k w'.
    pose proof (recordActions_subscribed n w Hok) as Hsub.
    subst k w'. destruct (recordActions n w) as [k w1]. simpl.
    destruct Hsub as (Hk & Hnil & Hone).
    assert (actions k (run_calls calls w1) = omap record_of calls) as Hact.
    { rewrite (run_calls_actions calls w1 k (node_tree n) Hk Hone Hall).
      by rewrite Hnil. }
    pose proof (omap_recorded calls Hsegs) as Hrec.
    rewrite Hact. split; [exact Hrec|].
    intros Hser. apply Forall2_length in Hrec.
    by rewrite (filter_all _ _ Hser) in Hrec.
  - vm_compute. repeat split.
  - vm_compute. repeat split.
  - vm_compute. repeat split.
  - vm_compute. repeat split.
  - vm_compute. repeat split.
Qed.

(** *** The general statements on the models of the tests *)

(** The store of the tests and two of its nodes. *)
Definition store_data : json :=
  JObj [("customers", JArr [JObj [("id", JNum 1); ("name", JStr "Mattia")]]);
        ("orders", JArr [JObj [("customer", JNull)]])].

Definition order0 (t : nat) : node := Node t ["orders"; "0"].
Definition customer0 (t : nat) : node := Node t ["customers"; "0"].

(** A store, as the tests create it, and one call on its first order. *)
Definition one_store : world := (createTestStore init_world).2.

Definition store0 : node := Node 0 [].

Definition one_setCustomer : list top_call :=
  [TopCall "setCustomer" Order_setCustomer (order0 0) [RNode (customer0 0)]].

Lemma recorder_logs_every_call_witness :
  Forall2 recorded (List.filter serialises one_setCustomer)
    (actions (recordActions store0 one_store).1
       (run_calls one_setCustomer (recordActions store0 one_store).2)) /\
  length (actions (recordActions store0 one_store).1
            (run_calls one_setCustomer (recordActions store0 one_store).2))
  = length one_setCustomer.
Proof.
  destruct (proj1 recorder_logs_every_call one_store store0 one_setCustomer) as [H1 H2].
  - intros t k. unfold listeners_of, one_store. simpl.
    destruct (decide (t = 0)) as [->|Hne].
    + rewrite lookup_insert_eq. unfold listeners_of. simpl. rewrite lookup_empty.
      simpl. lia.
    + rewrite lookup_insert_ne by done. rewrite lookup_empty. simpl. lia.
  - repeat constructor.
  - repeat constructor.
  - split; [exact H1|]. apply H2. reflexivity.
Defined.

Lemma reference_round_trip_witness :
  encode (order0 0) (RNode (customer0 0)) =
    inr (JObj [("$ref",
                JStr (getRelativePath (node_path (order0 0)) (node_path (customer0 0))))]) /\
  decode store_data (order0 1)
    (JObj [("$ref",
            JStr (getRelativePath (node_path (order0 0)) (node_path (customer0 0))))])
  = inr (RNode (Node (node_tree (order0 1)) (node_path (customer0 0)))).
Proof.
  apply (proj1 reference_round_trip (order0 0) (customer0 0) store_data (order0 1)).
  - reflexivity.
  - reflexivity.
  - repeat constructor.
  - by eexists.
Defined.

End Actions.
